(** * id3v2: the Tag aggregate of tag.go

    A shallow embedding of [tag.go] (package id3v2): the three maps of a
    [Tag], the routing of [AddFrame], lazy retrieval with [GetFrames] and
    [GetLastFrame], the typed accessors, the frame serializer [formFrame]
    and the rewrite performed by [Save] over a small model of the files
    the [os] package gives access to.

    Go maps keyed by strings are [gmap string _]; byte slices and
    [bytes.Buffer] contents are [list byte]; an interface value is an
    [option] of its dynamic value, [None] being Go's [nil]; a panic is
    the [Panic] outcome of the [result] type. *)

From Stdlib Require Import ZArith Lia String.
From Stdlib.Strings Require Import Byte.
From stdpp Require Import base gmap strings list fin_maps option.

Local Open Scope Z_scope.

(** ** Outcomes of Go code that may panic *)

Inductive result (A : Type) : Type :=
| Ok (a : A)
| Panic (msg : string).
Arguments Ok {A} a.
Arguments Panic {A} msg.

Definition bind_result {A B : Type} (r : result A) (k : A → result B) : result B :=
  match r with
  | Ok a => k a
  | Panic msg => Panic msg
  end.

(** ** Frames and sequences *)

(** Modelled from the spec: [frameCoordinates] is declared outside tag.go;
    the spec describes a Coordinate as a (start-offset, length) pair into
    the original file's byte stream. *)
Record frameCoordinates : Type := mkCoords { Pos : Z; Len : Z }.

(** ** Files

    What [Save] uses of the packages [os], [io] and [io/ioutil]: a
    directory of names, the files they denote (contents and permission
    mode), and the open-file objects behind [*os.File] pointers, each with
    its own offset. Every call first asks the environment for its outcome:
    [faults] lists, call by call, whether the next call fails and, for a
    call that transfers bytes, how many it transfers before failing.
    [trace] records the calls that were carried out. *)

Definition error : Type := string.
Definition FileMode : Type := N.

Definition ErrClosed : error := "file already closed".
Definition EINVAL : error := "invalid argument".
Definition ENOENT : error := "no such file or directory".

Record inode : Type := mkInode { i_data : list byte; i_mode : FileMode }.

Record osFile : Type := mkFile {
  f_name : string;
  f_ino : nat;
  f_off : nat;
  f_closed : bool
}.

Inductive fault : Type := Fault (e : error) (transferred : nat).

Inductive event : Type :=
| EvCreate (name : string) (ino : nat)
| EvWrite (ino : nat) (off : nat) (data : list byte)
| EvRead (ino : nat) (off : nat) (len : nat)
| EvSeek (fp : nat) (off : nat)
| EvStat (ino : nat)
| EvChmod (ino : nat) (mode : FileMode)
| EvRename (oldname newname : string)
| EvClose (fp : nat).

Record World : Type := mkWorld {
  names : gmap string nat;
  inodes : gmap nat inode;
  files : gmap nat osFile;
  faults : list (option fault);
  trace : list event
}.

Definition set_names (w : World) (m : gmap string nat) : World :=
  mkWorld m (inodes w) (files w) (faults w) (trace w).
Definition set_inodes (w : World) (m : gmap nat inode) : World :=
  mkWorld (names w) m (files w) (faults w) (trace w).
Definition set_files (w : World) (m : gmap nat osFile) : World :=
  mkWorld (names w) (inodes w) m (faults w) (trace w).
Definition set_faults (w : World) (l : list (option fault)) : World :=
  mkWorld (names w) (inodes w) (files w) l (trace w).
Definition log (w : World) (e : event) : World :=
  mkWorld (names w) (inodes w) (files w) (faults w) (trace w ++ [e]).

(** Go's [(value, error)] results. *)
Inductive errorOr (A : Type) : Type :=
| Val (a : A)
| Err (e : error).
Arguments Val {A} a.
Arguments Err {A} e.

Definition IO (A : Type) : Type := World → errorOr A * World.

Definition io_ret {A : Type} (a : A) : IO A := λ w, (Val a, w).

(** Sequencing with Go's [if err != nil { return err }] after each call. *)
Definition io_bind {A B : Type} (m : IO A) (k : A → IO B) : IO B :=
  λ w, match m w with
       | (Val a, w') => k a w'
       | (Err e, w') => (Err e, w')
       end.

(** [defer cleanup()]: [cleanup] runs when the rest of the function
    returns, on every path; its own result is dropped. *)
Definition defer {A B : Type} (cleanup : IO B) (body : IO A) : IO A :=
  λ w, match body w with
       | (r, w') => (r, (cleanup w').2)
       end.

Notation "'io' x <- m ; k" := (io_bind m (λ x, k))
  (at level 10, x name, m at level 100, k at level 200).
Notation "'io_' m ; k" := (io_bind m (λ _, k))
  (at level 10, m at level 100, k at level 200).

(** The outcome the environment gives to the next call. *)
Definition next_fault (w : World) : option fault * World :=
  match faults w with
  | [] => (None, w)
  | x :: rest => (x, set_faults w rest)
  end.

(** The open-file object behind a pointer, if it is still open. *)
Definition open_file (w : World) (fp : nat) : option osFile :=
  match files w !! fp with
  | Some f => if f_closed f then None else Some f
  | None => None
  end.

(** The contents of a file after [b] is written at offset [off]; a gap
    past the end reads as zero bytes. *)
Definition write_at (off : nat) (b data : list byte) : list byte :=
  take off data ++ replicate (off - length data) x00 ++ b ++ drop (off + length b) data.

(** Writes [b] through [fp] at its offset and advances the offset. *)
Definition do_write (fp : nat) (b : list byte) (w : World) : option World :=
  match open_file w fp with
  | None => None
  | Some f =>
      match inodes w !! f_ino f with
      | None => None
      | Some i =>
          let w1 := set_inodes w (<[f_ino f := mkInode (write_at (f_off f) b (i_data i)) (i_mode i)]> (inodes w)) in
          let w2 := set_files w1 (<[fp := mkFile (f_name f) (f_ino f) (f_off f + length b) false]> (files w1)) in
          Some (log w2 (EvWrite (f_ino f) (f_off f) b))
      end
  end.

(** [ioutil.TempFile] with the default directory and no prefix: a new
    file under a name not in use, empty, mode 0600, open for reading and
    writing at offset 0. *)
Definition TempFile : IO nat :=
  λ w, match next_fault w with
       | (Some (Fault e _), w) => (Err e, w)
       | (None, w) =>
           let name := fresh (dom (names w)) in
           let ino := fresh (dom (inodes w)) in
           let fp := fresh (dom (files w)) in
           let w1 := set_names w (<[name := ino]> (names w)) in
           let w2 := set_inodes w1 (<[ino := mkInode [] 384%N]> (inodes w1)) in
           let w3 := set_files w2 (<[fp := mkFile name ino 0 false]> (files w2)) in
           (Val fp, log w3 (EvCreate name ino))
       end.

(** [f.Write(b)]: a failing write may have written a prefix of [b]. *)
Definition File_Write (fp : nat) (b : list byte) : IO nat :=
  λ w, match next_fault w with
       | (Some (Fault e n), w) => (Err e, default w (do_write fp (take n b) w))
       | (None, w) =>
           match do_write fp b w with
           | Some w' => (Val (length b), w')
           | None => (Err ErrClosed, w)
           end
       end.

(** [f.Seek(off, os.SEEK_SET)]. *)
Definition File_Seek (fp : nat) (off : Z) : IO Z :=
  λ w, match next_fault w with
       | (Some (Fault e _), w) => (Err e, w)
       | (None, w) =>
           match open_file w fp with
           | None => (Err ErrClosed, w)
           | Some f =>
               if decide (off < 0) then (Err EINVAL, w)
               else
                 let w1 := set_files w (<[fp := mkFile (f_name f) (f_ino f) (Z.to_nat off) false]> (files w)) in
                 (Val off, log w1 (EvSeek fp (Z.to_nat off)))
           end
       end.

(** What is left to read from [fp]: the file's bytes from its offset on. *)
Definition remaining (w : World) (fp : nat) : option (osFile * list byte) :=
  match open_file w fp with
  | None => None
  | Some f =>
      match inodes w !! f_ino f with
      | None => None
      | Some i => Some (f, drop (f_off f) (i_data i))
      end
  end.

(** Reads [len] bytes through [fp]: the offset advances. *)
Definition do_read (fp : nat) (len : nat) (w : World) : World :=
  match open_file w fp with
  | None => w
  | Some f =>
      let w1 := set_files w (<[fp := mkFile (f_name f) (f_ino f) (f_off f + len) false]> (files w)) in
      log w1 (EvRead (f_ino f) (f_off f) len)
  end.

(** [io.Copy(dst, src)]: everything from the offset of [src] to its end is
    written through [dst]; a failing copy may have moved a prefix. *)
Definition io_Copy (dst src : nat) : IO nat :=
  λ w, match next_fault w with
       | (Some (Fault e n), w) =>
           match remaining w src with
           | None => (Err e, w)
           | Some (_, rest) =>
               let part := take n rest in
               let w1 := do_read src (length part) w in
               (Err e, default w1 (do_write dst part w1))
           end
       | (None, w) =>
           match remaining w src with
           | None => (Err ErrClosed, w)
           | Some (_, rest) =>
               let w1 := do_read src (length rest) w in
               match do_write dst rest w1 with
               | Some w2 => (Val (length rest), w2)
               | None => (Err ErrClosed, w1)
               end
           end
       end.

(** [f.Stat()] followed by [.Mode()]. *)
Definition File_Stat (fp : nat) : IO FileMode :=
  λ w, match next_fault w with
       | (Some (Fault e _), w) => (Err e, w)
       | (None, w) =>
           match open_file w fp with
           | None => (Err ErrClosed, w)
           | Some f =>
               match inodes w !! f_ino f with
               | None => (Err ENOENT, w)
               | Some i => (Val (i_mode i), log w (EvStat (f_ino f)))
               end
           end
       end.

(** [f.Chmod(mode)]. *)
Definition File_Chmod (fp : nat) (mode : FileMode) : IO unit :=
  λ w, match next_fault w with
       | (Some (Fault e _), w) => (Err e, w)
       | (None, w) =>
           match open_file w fp with
           | None => (Err ErrClosed, w)
           | Some f =>
               match inodes w !! f_ino f with
               | None => (Err ENOENT, w)
               | Some i =>
                   let w1 := set_inodes w (<[f_ino f := mkInode (i_data i) mode]> (inodes w)) in
                   (Val tt, log w1 (EvChmod (f_ino f) mode))
               end
           end
       end.

(** [os.Rename(oldname, newname)]: [newname] now denotes the file that
    [oldname] denoted, replacing whatever it denoted before, and
    [oldname] is gone; a failing rename changes nothing. *)
Definition os_Rename (oldname newname : string) : IO unit :=
  λ w, match next_fault w with
       | (Some (Fault e _), w) => (Err e, w)
       | (None, w) =>
           match names w !! oldname with
           | None => (Err ENOENT, w)
           | Some ino =>
               let w1 := set_names w (<[newname := ino]> (delete oldname (names w))) in
               (Val tt, log w1 (EvRename oldname newname))
           end
       end.

(** [f.Name()]: the name the file was opened under. *)
Definition File_Name (w : World) (fp : nat) : string :=
  match files w !! fp with
  | Some f => f_name f
  | None => ""
  end.

(** [f.Close()]. *)
Definition File_Close (fp : nat) : IO unit :=
  λ w, match open_file w fp with
       | None => (Err ErrClosed, w)
       | Some f =>
           let w1 := set_files w (<[fp := mkFile (f_name f) (f_ino f) (f_off f) true]> (files w)) in
           (Val tt, log w1 (EvClose fp))
       end.

Section Collaborators.

(** The declarations tag.go uses but does not contain are parameters:
    the text encoding type with its value [ENUTF8] and its zero value,
    [TextFrame.Body], [util.FormSize], [formTagHeader] and the reader
    that materializes one frame from its coordinates. *)
Variable TextEncoding : Type.
Variable ENUTF8 : TextEncoding.
Variable zeroEncoding : TextEncoding.

(** [TextFrame{Encoding: ..., Text: ...}] as tag.go builds it. *)
Record TextFrame : Type := mkTextFrame { Encoding : TextEncoding; Text : string }.

(** [TextFrame{}]: every field at its zero value. *)
Definition zeroTextFrame : TextFrame := mkTextFrame zeroEncoding "".

Variable TextFrame_Body : TextFrame → list byte.
Variable FormSize : Z → list byte.
Variable formTagHeader : list byte → list byte.

(** The dynamic value behind a non-nil [Framer]: a [TextFrame], which
    tag.go names, or a value of any other type implementing the
    interface, of which only its type name and what [Body()] returns
    are observable from tag.go. *)
Inductive Frame : Type :=
| TextFrameV (tf : TextFrame)
| OtherFrameV (tyname : string) (body : list byte).

(** The interface type [Framer]; [None] is the nil interface. *)
Definition Framer : Type := option Frame.

Definition Body (fr : Frame) : list byte :=
  match fr with
  | TextFrameV tf => TextFrame_Body tf
  | OtherFrameV _ body => body
  end.

Variable readFrame : string → frameCoordinates → Framer.

(** Modelled from the spec: the [sequencer] interface and its three
    implementations are declared outside tag.go. The spec describes one
    generic Sequence, an ordered growable list of frames to which
    [AddFrame] appends and whose [Frames] returns the list in insertion
    order; the three constructors differ only in the kind they create. *)
Inductive sequenceKind : Type := PictureSeq | CommentSeq | USLFSeq.

(** Modelled from the spec: a [sequencer] value, which is declared outside
    tag.go: the kind it was created with and its frames in insertion
    order. *)
Record sequencer : Type := mkSequence { seq_kind : sequenceKind; seq_frames : list Framer }.

(** Modelled from the spec: the constructor [newPictureSequence], declared
    outside tag.go, creates an empty sequence. *)
Definition newPictureSequence (_ : unit) : sequencer := mkSequence PictureSeq [].

(** Modelled from the spec: the constructor [newCommentSequence], declared
    outside tag.go, creates an empty sequence. *)
Definition newCommentSequence (_ : unit) : sequencer := mkSequence CommentSeq [].

(** Modelled from the spec: the constructor [newUSLFSequence], declared
    outside tag.go, creates an empty sequence. *)
Definition newUSLFSequence (_ : unit) : sequencer := mkSequence USLFSeq [].

(** Modelled from the spec: the method [AddFrame] of a sequencer, declared
    outside tag.go, appends to the ordered list and never replaces prior
    entries. *)
Definition seq_AddFrame (s : sequencer) (f : Framer) : sequencer :=
  mkSequence (seq_kind s) (seq_frames s ++ [f]).

(** Modelled from the spec: the method [Frames] of a sequencer, declared
    outside tag.go, returns the full ordered contents. *)
Definition seq_Frames (s : sequencer) : list Framer := seq_frames s.

(** ** The Tag *)

(** The four maps are allocated, as in a Tag the package hands out
    (assigning to a nil map would panic). [file] is the [*os.File] the Tag
    owns: a pointer, here the index of the file object in the open-file
    table of the [World] above. *)
Record Tag : Type := mkTag {
  framesCoords : gmap string (list frameCoordinates);
  frames : gmap string Framer;
  sequences : gmap string sequencer;
  ids : gmap string string;
  file : nat;
  originalSize : Z
}.

Definition set_framesCoords (t : Tag) (m : gmap string (list frameCoordinates)) : Tag :=
  mkTag m (frames t) (sequences t) (ids t) (file t) (originalSize t).
Definition set_frames (t : Tag) (m : gmap string Framer) : Tag :=
  mkTag (framesCoords t) m (sequences t) (ids t) (file t) (originalSize t).
Definition set_sequences (t : Tag) (m : gmap string sequencer) : Tag :=
  mkTag (framesCoords t) (frames t) m (ids t) (file t) (originalSize t).
Definition set_file (t : Tag) (f : nat) : Tag :=
  mkTag (framesCoords t) (frames t) (sequences t) (ids t) f (originalSize t).

(** Methods of [*Tag] read and update the Tag and may panic. *)
Definition TagM (A : Type) : Type := Tag → result (A * Tag).

Definition ret {A : Type} (a : A) : TagM A := λ t, Ok (a, t).
Definition bind {A B : Type} (m : TagM A) (k : A → TagM B) : TagM B :=
  λ t, match m t with
       | Ok (a, t') => k a t'
       | Panic msg => Panic msg
       end.
Definition panic {A : Type} (msg : string) : TagM A := λ _, Panic msg.
Definition get : TagM Tag := λ t, Ok (t, t).
Definition modify (f : Tag → Tag) : TagM unit := λ t, Ok (tt, f t).

Notation "'do' x <- m ; k" := (bind m (λ x, k))
  (at level 10, x name, m at level 100, k at level 200).
Notation "'do_' m ; k" := (bind m (λ _, k))
  (at level 10, m at level 100, k at level 200).

Fixpoint forM_ {A : Type} (l : list A) (body : A → TagM unit) : TagM unit :=
  match l with
  | [] => ret tt
  | x :: l' => do_ body x; forM_ l' body
  end.

(** [t.ids[description]]: a missing key reads as the empty string. *)
Definition ID (t : Tag) (description : string) : string :=
  default "" (ids t !! description).

(** [t.sequences[id] == nil]: there is no sequence under [id]; tag.go
    stores under a key only what a constructor returned, never nil. *)
Definition checkExistenceOfSequence (id : string) (newSequence : unit → sequencer) : TagM unit :=
  λ t, match sequences t !! id with
       | None => Ok (tt, set_sequences t (<[id := newSequence tt]> (sequences t)))
       | Some _ => Ok (tt, t)
       end.

(** [t.sequences[id].AddFrame(f)]: reading a missing key yields the nil
    interface, on which the method call panics. *)
Definition addFrameToSequence (id : string) (f : Framer) : TagM unit :=
  λ t, match sequences t !! id with
       | Some s => Ok (tt, set_sequences t (<[id := seq_AddFrame s f]> (sequences t)))
       | None => Panic "invalid memory address or nil pointer dereference"
       end.

Definition addAttachedPicture (f : Framer) : TagM unit :=
  do t <- get;
  let id := ID t "Attached picture" in
  do_ checkExistenceOfSequence id newPictureSequence;
  addFrameToSequence id f.

Definition addCommentFrame (f : Framer) : TagM unit :=
  do t <- get;
  let id := ID t "Comments" in
  do_ checkExistenceOfSequence id newCommentSequence;
  addFrameToSequence id f.

Definition addUnsynchronisedLyricsFrame (f : Framer) : TagM unit :=
  do t <- get;
  let id := ID t "Unsynchronised lyrics/text transcription" in
  do_ checkExistenceOfSequence id newUSLFSequence;
  addFrameToSequence id f.

(** The [switch]: cases are tried in order; [None] is the nil func. *)
Definition findSpecificAddFunction (t : Tag) (id : string) : option (Framer → TagM unit) :=
  if decide (id = ID t "Attached picture") then Some addAttachedPicture
  else if decide (id = ID t "Comments") then Some addCommentFrame
  else if decide (id = ID t "Unsynchronised lyrics/text transcription")
       then Some addUnsynchronisedLyricsFrame
  else None.

Definition AddFrame (id : string) (f : Framer) : TagM unit :=
  do t <- get;
  match findSpecificAddFunction t id with
  | Some addFunc => addFunc f
  | None => modify (λ t, set_frames t (<[id := f]> (frames t)))
  end.

(** Modelled from the spec: [parseFramesCoordsWithID] is declared outside
    tag.go. The spec has it materialize exactly the pending coordinates
    of [id] into frames, stored through [AddFrame] ("the single mutation
    entry point"), and then clear the pending-coordinates entry of [id]. *)
Definition parseFramesCoordsWithID (id : string) : TagM unit :=
  do t <- get;
  match framesCoords t !! id with
  | None => ret tt
  | Some fcs =>
      do_ forM_ fcs (λ fc, AddFrame id (readFrame id fc));
      modify (λ t, set_framesCoords t (delete id (framesCoords t)))
  end.

(** Modelled from the spec: [parseAllFramesCoords] is declared outside
    tag.go. The spec has it force the materialization of every pending
    coordinate across all identifiers. *)
Definition parseAllFramesCoords : TagM unit :=
  do t <- get;
  forM_ (map_to_list (framesCoords t)).*1 parseFramesCoordsWithID.

(** The map [AllFrames] builds: the single frame of an identifier, if
    any, followed by the frames of its sequence, if any. Each identifier
    occurs once in each of the two [range] loops, so the order in which
    Go visits the keys does not show in the result. *)
Definition AllFrames : TagM (gmap string (list Framer)) :=
  do_ parseAllFramesCoords;
  do t <- get;
  ret (union_with (λ fs ss, Some (fs ++ ss))
         ((λ frame, [frame]) <$> frames t)
         (seq_Frames <$> sequences t)).

Definition GetFrames (id : string) : TagM (list Framer) :=
  do t <- get;
  do_ (if decide (is_Some (framesCoords t !! id))
       then parseFramesCoordsWithID id else ret tt);
  do t <- get;
  match frames t !! id with
  | Some f => ret [f]
  | None =>
      match sequences t !! id with
      | Some s => ret (seq_Frames s)
      | None => ret []
      end
  end.

Definition GetLastFrame (id : string) : TagM Framer :=
  do fs <- GetFrames id;
  if decide (length fs = 0%nat) then ret None
  else ret (default None (fs !! (length fs - 1)%nat)).

(** [f.(TextFrame)]: the unchecked type assertion panics when the
    dynamic type of [f] is not [TextFrame]. *)
Definition GetTextFrame (id : string) : TagM TextFrame :=
  do f <- GetLastFrame id;
  match f with
  | None => ret zeroTextFrame
  | Some (TextFrameV tf) => ret tf
  | Some (OtherFrameV tyname _) =>
      panic ("interface conversion: id3v2.Framer is " ++ tyname ++ ", not id3v2.TextFrame")
  end.

Definition Title : TagM string :=
  do t <- get;
  do f <- GetTextFrame (ID t "Title/Songname/Content description");
  ret (Text f).

Definition SetTitle (title : string) : TagM unit :=
  do t <- get;
  AddFrame (ID t "Title/Songname/Content description")
           (Some (TextFrameV (mkTextFrame ENUTF8 title))).

Definition Artist : TagM string :=
  do t <- get;
  do f <- GetTextFrame (ID t "Lead artist/Lead performer/Soloist/Performing group");
  ret (Text f).

Definition SetArtist (artist : string) : TagM unit :=
  do t <- get;
  AddFrame (ID t "Lead artist/Lead performer/Soloist/Performing group")
           (Some (TextFrameV (mkTextFrame ENUTF8 artist))).

Definition Album : TagM string :=
  do t <- get;
  do f <- GetTextFrame (ID t "Album/Movie/Show title");
  ret (Text f).

Definition SetAlbum (album : string) : TagM unit :=
  do t <- get;
  AddFrame (ID t "Album/Movie/Show title")
           (Some (TextFrameV (mkTextFrame ENUTF8 album))).

Definition Year : TagM string :=
  do t <- get;
  do f <- GetTextFrame (ID t "Recording time");
  ret (Text f).

Definition SetYear (year : string) : TagM unit :=
  do t <- get;
  AddFrame (ID t "Recording time")
           (Some (TextFrameV (mkTextFrame ENUTF8 year))).

Definition Genre : TagM string :=
  do t <- get;
  do f <- GetTextFrame (ID t "Content type");
  ret (Text f).

Definition SetGenre (genre : string) : TagM unit :=
  do t <- get;
  AddFrame (ID t "Content type")
           (Some (TextFrameV (mkTextFrame ENUTF8 genre))).


(** ** Serialization *)

(** [bytes.Buffer] is the list of bytes written so far; [WriteString]
    writes the bytes of the string. [frameSize] is [int64(len(frameBody))],
    the length itself: a slice length is never negative and fits. *)
Definition writeFrameHeader (buf : list byte) (id : string) (frameSize : Z) : list byte :=
  buf ++ list_byte_of_string id ++ FormSize frameSize ++ [x00; x00].

(** Modelled from the spec: [bytesbufferpool.Get] is declared outside
    tag.go; the spec has pooling be a performance detail with no
    behavioural difference from a fresh buffer per call. *)
Definition bytesbufferpool_Get (_ : unit) : list byte := [].

(** [frame.Body()] on the nil interface panics. *)
Definition formFrame (id : string) (frame : Framer) : result (list byte) :=
  if decide (id = "") then Panic "there is blank ID in frames"
  else
    let frameBuffer := bytesbufferpool_Get tt in
    match frame with
    | None => Panic "invalid memory address or nil pointer dereference"
    | Some fr =>
        let frameBody := Body fr in
        let frameBuffer := writeFrameHeader frameBuffer id (Z.of_nat (length frameBody)) in
        let frameBuffer := frameBuffer ++ frameBody in
        Ok frameBuffer
    end.

(** The inner loop of [writeFrames]: [w.Write(formFrame(id, f))] for
    each frame of one identifier. *)
Fixpoint writeFramesOf (id : string) (fs : list Framer) (w : list byte) : result (list byte) :=
  match fs with
  | [] => Ok w
  | f :: fs' => bind_result (formFrame id f) (λ b, writeFramesOf id fs' (w ++ b))
  end.

(** The outer loop, over the entries of the map in the order given. *)
Fixpoint writeFrameGroups (groups : list (string * list Framer)) (w : list byte)
  : result (list byte) :=
  match groups with
  | [] => Ok w
  | (id, fs) :: groups' => bind_result (writeFramesOf id fs w) (writeFrameGroups groups')
  end.

(** Go leaves the order in which [range] visits a map unspecified; the
    model visits the entries in the order of [map_to_list]. *)
Definition writeFrames (w : list byte) : TagM (list byte) :=
  do all <- AllFrames;
  λ t, match writeFrameGroups (map_to_list all) w with
       | Ok w' => Ok (w', t)
       | Panic msg => Panic msg
       end.

Definition formAllFrames : TagM (list byte) :=
  let framesBuffer := bytesbufferpool_Get tt in
  writeFrames framesBuffer.

(** ** Save *)

(** The file operations of [Save], given the frames already formed. *)
Definition Save_io (t : Tag) (frames : list byte) : IO Tag :=
  let framesSize := FormSize (Z.of_nat (length frames)) in
  io newFile <- TempFile;
  io_ File_Write newFile (formTagHeader framesSize);
  io_ File_Write newFile frames;
  let originalFile := file t in
  defer (File_Close originalFile) (
    io_ File_Seek originalFile (originalSize t);
    io_ io_Copy newFile originalFile;
    io originalFileMode <- File_Stat originalFile;
    io_ File_Chmod newFile originalFileMode;
    io_ (λ w, os_Rename (File_Name w newFile) (File_Name w originalFile) w);
    io_ret (set_file t newFile)).

(** [Save] returns Go's [error]: [None] is the nil error. The Tag it
    returns is the Tag after the call. A panic while the frames are
    formed happens before any file operation. *)
Definition Save (t : Tag) (w : World) : result (option error * Tag) * World :=
  match formAllFrames t with
  | Panic msg => (Panic msg, w)
  | Ok (frames, t1) =>
      match Save_io t1 frames w with
      | (Val t2, w') => (Ok (None, t2), w')
      | (Err e, w') => (Ok (Some e, t1), w')
      end
  end.

(** [Close] closes the Tag's file. *)
Definition Close (t : Tag) : IO unit := File_Close (file t).

(** ** Routing *)

(** The identifiers the [switch] of [findSpecificAddFunction] routes. *)
Definition routed (t : Tag) (id : string) : Prop :=
  id = ID t "Attached picture" ∨ id = ID t "Comments"
  ∨ id = ID t "Unsynchronised lyrics/text transcription".

(** The frames [sequences[id]] holds, none when there is no sequence. *)
Definition sequenceFrames (t : Tag) (id : string) : list Framer :=
  from_option seq_Frames [] (sequences t !! id).

(** The invariant of the [sequences] map: no stored sequence is empty. *)
Definition nonEmptySequences (t : Tag) : Prop :=
  ∀ (id : string) (s : sequencer), sequences t !! id = Some s → seq_Frames s ≠ [].

(** How the sequences of [t'] relate to those of an earlier [t]: the
    identifier table, the file and the original size are the same, a
    sequence that existed still exists and its frames are a prefix of
    what it holds now, and a sequence that did not exist holds at least
    one frame. *)
Definition grows (t t' : Tag) : Prop :=
  (ids t' = ids t ∧ file t' = file t ∧ originalSize t' = originalSize t)
  ∧ (∀ (id : string) (s : sequencer), sequences t !! id = Some s →
       ∃ s' : sequencer, sequences t' !! id = Some s'
                         ∧ seq_Frames s `prefix_of` seq_Frames s')
  ∧ (∀ (id : string) (s' : sequencer), sequences t' !! id = Some s' →
       sequences t !! id = None → seq_Frames s' ≠ []).

(** A method that returns from every Tag, leaving a Tag that [grows]. *)
Definition growing {A : Type} (m : TagM A) : Prop :=
  ∀ t : Tag, ∃ (a : A) (t' : Tag), m t = Ok (a, t') ∧ grows t t'.

(** A method that returns from [t] with the invariant and the order of
    every sequence kept. *)
Definition keeps {A : Type} (m : TagM A) (t : Tag) : Prop :=
  ∃ (a : A) (t' : Tag), m t = Ok (a, t') ∧ nonEmptySequences t' ∧ grows t t'.

(** The last element of a list of frames, nil for the empty list. *)
Definition lastOrNil (fs : list Framer) : Framer := default None (list.last fs).

(** What a typed getter owes for the identifier of its description:
    the empty string when [GetLastFrame] yields nil, the text of a
    [TextFrame], and a panic on a frame of any other type. *)
Definition getterContract (getter : TagM string) (description : string) (t : Tag) : Prop :=
  (∀ t' : Tag, GetLastFrame (ID t description) t = Ok (None, t') →
     getter t = Ok ("", t'))
  ∧ (∀ (tf : TextFrame) (t' : Tag),
       GetLastFrame (ID t description) t = Ok (Some (TextFrameV tf), t') →
       getter t = Ok (Text tf, t'))
  ∧ (∀ (tyname : string) (body : list byte) (t' : Tag),
       GetLastFrame (ID t description) t = Ok (Some (OtherFrameV tyname body), t') →
       ∃ msg : string, getter t = Panic msg).

(** The error of the first failure due among the next [n] calls, if
    any of them is to fail. *)
Fixpoint firstFault (n : nat) (l : list (option fault)) : option error :=
  match n, l with
  | S n', None :: l' => firstFault n' l'
  | S _, Some (Fault e _) :: _ => Some e
  | _, _ => None
  end.






(** [m] started in a world satisfying [P] ends in one satisfying [Q]
    when it returns a value and [E] when it returns an error. *)
Definition hoare {A : Type} (P : World → Prop) (m : IO A)
    (Q : A → World → Prop) (E : World → Prop) : Prop :=
  ∀ (w w' : World) (r : errorOr A), P w → m w = (r, w') →
    match r with
    | Val a => Q a w'
    | Err _ => E w'
    end.

(** Nothing is pending under the identifier of [description], and when
    that identifier is routed no single frame hides its sequence. *)
Definition settled (t : Tag) (description : string) : Prop :=
  framesCoords t !! ID t description = None
  ∧ (routed t (ID t description) → frames t !! ID t description = None).

(** The frames of one identifier that [writeFrames] can serialize: no
    frame at all, or frames that are not nil under an identifier that is
    not empty. *)
Definition serializable (id : string) (fs : list Framer) : Prop :=
  fs = [] ∨ (id ≠ "" ∧ Forall (λ f : Framer, f ≠ None) fs).

(** The Tags whose frames all serialize: no single frame is nil or
    stored under the empty identifier, and every sequence is
    [serializable] under its identifier. *)
Definition storable (t : Tag) : Prop :=
  (∀ (id : string) (f : Framer), frames t !! id = Some f → id ≠ "" ∧ f ≠ None)
  ∧ (∀ (id : string) (s : sequencer), sequences t !! id = Some s →
       serializable id (seq_Frames s)).

(** [m] returns from [t] and leaves a Tag on which [Save] panics, in
    whatever world, without touching it. *)
Definition breaksSave (m : TagM unit) (t : Tag) : Prop :=
  ∃ t1 : Tag, m t = Ok (tt, t1) ∧ ∀ w : World, ∃ msg : string, Save t1 w = (Panic msg, w).

(** The file object [fp] exists and has been closed. *)
Definition closedFile (w : World) (fp : nat) : Prop :=
  ∃ f : osFile, files w !! fp = Some f ∧ f_closed f = true.

(** [w] has the directory of the earlier [w1] and still has its file
    objects and files. *)
Definition extendsWorld (w1 w : World) : Prop :=
  names w = names w1
  ∧ (∀ fp : nat, is_Some (files w1 !! fp) → is_Some (files w !! fp))
  ∧ (∀ i : nat, is_Some (inodes w1 !! i) → is_Some (inodes w !! i)).




(** ** A worked instance

    One choice of the collaborators, Tags and a world with one file, on
    which the statements below are exercised. *)

Definition demo_Body (tf : TextFrame) : list byte := list_byte_of_string (Text tf).

Definition demo_FormSize (n : Z) : list byte :=
  [x00; x00; x00; default x00 (Byte.of_N (Z.to_N n mod 128))].

Definition demo_formTagHeader (framesSize : list byte) : list byte :=
  list_byte_of_string "ID3" ++ [x03; x00; x00] ++ framesSize.

Definition demo_readFrame (id : string) (fc : frameCoordinates) : Framer := None.

Definition demo_ids : gmap string string :=
  list_to_map
    [("Attached picture", "APIC"); ("Comments", "COMM");
     ("Unsynchronised lyrics/text transcription", "USLT");
     ("Title/Songname/Content description", "TIT2");
     ("Lead artist/Lead performer/Soloist/Performing group", "TPE1");
     ("Album/Movie/Show title", "TALB"); ("Recording time", "TDRC");
     ("Content type", "TCON")].

Definition demo_picture (description : string) : Framer :=
  Some (OtherFrameV "id3v2.PictureFrame" (list_byte_of_string description)).

Definition demo_text (text : string) : Framer :=
  Some (TextFrameV (mkTextFrame ENUTF8 text)).

(** A Tag on file object 0 whose tag region is 10 bytes long. *)
Definition demo_tag : Tag := mkTag ∅ ∅ ∅ demo_ids 0%nat 10.

(** [demo_tag] after [AddFrame("APIC", picture "G")]. *)
Definition demo_tag_G : Tag :=
  mkTag ∅ ∅ {["APIC" := mkSequence PictureSeq [demo_picture "G"]]} demo_ids 0%nat 10.

(** [demo_tag] after [SetTitle("Foo")]. *)
Definition demo_tag_Foo : Tag :=
  mkTag ∅ {["TIT2" := demo_text "Foo"]} ∅ demo_ids 0%nat 10.


(** A Tag that stores a picture under the title identifier. *)
Definition demo_tag_mistyped : Tag :=
  mkTag ∅ {["TIT2" := demo_picture "G"]} ∅ demo_ids 0%nat 10.

(** A Tag that stores a frame under the empty identifier. *)
Definition demo_tag_blank : Tag :=
  mkTag ∅ {["" := demo_text "Foo"]} ∅ demo_ids 0%nat 10.

(** A Tag whose table of identifiers is empty. *)
Definition demo_tag_noids : Tag := mkTag ∅ ∅ ∅ ∅ 0%nat 10.

(** A Tag that stores both a single frame and a sequence under "APIC". *)
Definition demo_tag_both : Tag :=
  mkTag ∅ {["APIC" := demo_picture "S"]}
        {["APIC" := mkSequence PictureSeq [demo_picture "G"]]} demo_ids 0%nat 10.

(** The frame block of the title "Foo". *)
Definition demo_frames : list byte :=
  list_byte_of_string "TIT2" ++ [x00; x00; x00; x03; x00; x00]
    ++ list_byte_of_string "Foo".

Definition demo_file : osFile := mkFile "song.mp3" 0 0 false.
Definition demo_tagRegion : list byte := list_byte_of_string "0123456789".
Definition demo_payload : list byte := list_byte_of_string "AUDIO".

(** One file, "song.mp3", open as file object 0; no call is due to fail. *)
Definition demo_world : World :=
  mkWorld {["song.mp3" := 0%nat]}
          {[0%nat := mkInode (demo_tagRegion ++ demo_payload) 420%N]}
          {[0%nat := demo_file]} [] [].

(** The same world in which the fifth call, the copy, fails after two bytes. *)
Definition demo_world_failing : World :=
  set_faults demo_world [None; None; None; None; Some (Fault "no space left on device" 2)].

(** ** AddFrame *)

Lemma routed_ids (t t' : Tag) (id : string) :
  ids t' = ids t → routed t id → routed t' id.
Proof. unfold routed, ID. by intros ->. Qed.

Lemma create_then_add (t : Tag) (id : string) (f : Framer) (mk : unit → sequencer) :
  bind (checkExistenceOfSequence id mk) (λ _, addFrameToSequence id f) t
  = Ok (tt, set_sequences t
              (<[id := seq_AddFrame (default (mk tt) (sequences t !! id)) f]> (sequences t))).
Proof.
  unfold bind, checkExistenceOfSequence, addFrameToSequence.
  destruct (sequences t !! id) as [s|] eqn:Hs; simpl.
  - by rewrite Hs.
  - rewrite lookup_insert_eq. unfold set_sequences; simpl.
    by rewrite insert_insert_eq.
Qed.

Lemma AddFrame_routed (t : Tag) (id : string) (f : Framer) :
  routed t id →
  ∃ mk : sequencer, seq_frames mk = [] ∧
    AddFrame id f t
    = Ok (tt, set_sequences t
                (<[id := seq_AddFrame (default mk (sequences t !! id)) f]> (sequences t))).
Proof.
  intros Hr. unfold AddFrame, findSpecificAddFunction.
  unfold bind at 1. unfold get at 1.
  destruct (decide (id = ID t "Attached picture")) as [->|H1].
  { exists (newPictureSequence tt). split; [done|].
    unfold addAttachedPicture. unfold bind at 1, get at 1. apply create_then_add. }
  destruct (decide (id = ID t "Comments")) as [->|H2].
  { exists (newCommentSequence tt). split; [done|].
    unfold addCommentFrame. unfold bind at 1, get at 1. apply create_then_add. }
  destruct (decide (id = ID t "Unsynchronised lyrics/text transcription")) as [->|H3].
  { exists (newUSLFSequence tt). split; [done|].
    unfold addUnsynchronisedLyricsFrame. unfold bind at 1, get at 1. apply create_then_add. }
  destruct Hr as [?|[?|?]]; done.
Qed.

Lemma AddFrame_flat (t : Tag) (id : string) (f : Framer) :
  ¬ routed t id →
  AddFrame id f t = Ok (tt, set_frames t (<[id := f]> (frames t))).
Proof.
  intros Hr. unfold AddFrame, findSpecificAddFunction, bind, get.
  repeat case_decide; try done; exfalso; apply Hr; unfold routed; auto.
Qed.

(** What [AddFrame] does, for routed and for other identifiers. *)
Lemma AddFrame_effect (t : Tag) (id : string) (f : Framer) :
  ∃ t' : Tag,
    AddFrame id f t = Ok (tt, t')
    ∧ framesCoords t' = framesCoords t
    ∧ ids t' = ids t ∧ file t' = file t ∧ originalSize t' = originalSize t
    ∧ (routed t id →
         frames t' = frames t
         ∧ (∃ mk : sequencer, seq_frames mk = []
              ∧ sequences t' !! id = Some (seq_AddFrame (default mk (sequences t !! id)) f))
         ∧ ∀ id' : string, id' ≠ id → sequences t' !! id' = sequences t !! id')
    ∧ (¬ routed t id →
         sequences t' = sequences t
         ∧ frames t' !! id = Some f
         ∧ ∀ id' : string, id' ≠ id → frames t' !! id' = frames t !! id').
Proof.
  destruct (decide (routed t id)) as [Hr|Hr].
  - destruct (AddFrame_routed t id f Hr) as (mk & Hmk & ->).
    eexists; split; [reflexivity|]. simpl. repeat split; try done.
    + exists mk. split; [done|]. by rewrite lookup_insert_eq.
    + intros id' Hne. by rewrite lookup_insert_ne.
  - rewrite (AddFrame_flat t id f Hr).
    eexists; split; [reflexivity|]. simpl. repeat split; try done.
    + by rewrite lookup_insert_eq.
    + intros id' Hne. by rewrite lookup_insert_ne.
Qed.

(** C10. The effect of [AddFrame(id, f)] is confined to one map entry.
    The call returns; [framesCoords], [ids], [file] and [originalSize]
    are unchanged. For a routed [id] the [frames] map is unchanged and
    [sequences[id]] becomes the sequence it held (a new, empty one when
    it held none) with [f] appended, every other entry of [sequences]
    being unchanged. For any other [id] the [sequences] map is unchanged
    and [frames[id]] becomes [f], every other entry of [frames] being
    unchanged. *)
Theorem AddFrame_confined (t : Tag) (id : string) (f : Framer) :
  ∃ t' : Tag,
    AddFrame id f t = Ok (tt, t')
    ∧ framesCoords t' = framesCoords t
    ∧ ids t' = ids t ∧ file t' = file t ∧ originalSize t' = originalSize t
    ∧ (routed t id →
         frames t' = frames t
         ∧ (∃ mk : sequencer, seq_frames mk = []
              ∧ sequences t' !! id = Some (seq_AddFrame (default mk (sequences t !! id)) f))
         ∧ ∀ id' : string, id' ≠ id → sequences t' !! id' = sequences t !! id')
    ∧ (¬ routed t id →
         sequences t' = sequences t
         ∧ frames t' !! id = Some f
         ∧ ∀ id' : string, id' ≠ id → frames t' !! id' = frames t !! id').
Proof.
  destruct (decide (routed t id)) as [Hr|Hr].
  - destruct (AddFrame_routed t id f Hr) as (mk & Hmk & ->).
    eexists; split; [reflexivity|]. simpl. repeat split; try done.
    + exists mk. split; [done|]. by rewrite lookup_insert_eq.
    + intros id' Hne. by rewrite lookup_insert_ne.
  - rewrite (AddFrame_flat t id f Hr).
    eexists; split; [reflexivity|]. simpl. repeat split; try done.
    + by rewrite lookup_insert_eq.
    + intros id' Hne. by rewrite lookup_insert_ne.
Qed.

(** ** GetFrames *)

Lemma GetFrames_no_pending (t : Tag) (id : string) :
  framesCoords t !! id = None →
  GetFrames id t
  = Ok (match frames t !! id with
        | Some f => [f]
        | None => sequenceFrames t id
        end, t).
Proof.
  intros Hc. unfold GetFrames, bind, get. rewrite Hc.
  rewrite decide_False; [|by intros [? ?]].
  unfold ret, sequenceFrames.
  destruct (frames t !! id); [done|]. by destruct (sequences t !! id).
Qed.

(** C4. For an identifier that is not routed and has no pending
    coordinates, [AddFrame(id, f1)] then [AddFrame(id, f2)] leaves
    [GetFrames(id)] returning exactly [[f2]]. *)
Theorem AddFrame_twice_overwrites (t : Tag) (id : string) (f1 f2 : Framer) :
  ¬ routed t id →
  framesCoords t !! id = None →
  ∃ t' : Tag,
    bind (AddFrame id f1) (λ _, bind (AddFrame id f2) (λ _, GetFrames id)) t
    = Ok ([f2], t').
Proof.
  intros Hr Hc. unfold bind at 1. rewrite (AddFrame_flat t id f1 Hr).
  set (t1 := set_frames t _).
  assert (Hr1 : ¬ routed t1 id) by done.
  unfold bind. rewrite (AddFrame_flat t1 id f2 Hr1).
  set (t2 := set_frames t1 _).
  rewrite (GetFrames_no_pending t2 id) by done.
  exists t2. simpl. by rewrite lookup_insert_eq.
Qed.

(** A run of [AddFrame] calls on one routed identifier. *)
Lemma AddFrame_all_routed (fs : list Framer) (t : Tag) (id : string) :
  routed t id →
  ∃ t' : Tag,
    forM_ fs (AddFrame id) t = Ok (tt, t')
    ∧ framesCoords t' = framesCoords t ∧ frames t' = frames t ∧ ids t' = ids t
    ∧ sequenceFrames t' id = sequenceFrames t id ++ fs
    ∧ ∀ id' : string, id' ≠ id → sequences t' !! id' = sequences t !! id'.
Proof.
  revert t. induction fs as [|f fs IH]; intros t Hr; simpl.
  - exists t. unfold ret. by rewrite app_nil_r.
  - destruct (AddFrame_routed t id f Hr) as (mk & Hmk & Hadd).
    unfold bind. rewrite Hadd.
    set (t1 := set_sequences t _).
    destruct (IH t1) as (t' & Hrun & Hc & Hf & Hi & Hs & Ho); [done|].
    exists t'. split; [done|]. repeat split; try done.
    + rewrite Hs. unfold sequenceFrames, t1; simpl. rewrite lookup_insert_eq; simpl.
      rewrite <- app_assoc. f_equal.
      destruct (sequences t !! id); simpl; [done|]. by rewrite Hmk.
    + intros id' Hne. rewrite (Ho id' Hne). unfold t1; simpl.
      by rewrite lookup_insert_ne.
Qed.

(** C3, as the code has it. For a routed identifier with no pending
    coordinates and no single frame stored under it, after
    [AddFrame(id, f1)], ..., [AddFrame(id, fn)] the call [GetFrames(id)]
    returns the frames the sequence of [id] already held followed by
    [f1, ..., fn] in insertion order; on a Tag that holds no sequence
    for [id] yet this is exactly [f1, ..., fn]. *)
Theorem AddFrame_routed_appends (t : Tag) (id : string) (fs : list Framer) :
  routed t id →
  framesCoords t !! id = None →
  frames t !! id = None →
  (∃ t' : Tag,
     bind (forM_ fs (AddFrame id)) (λ _, GetFrames id) t
     = Ok (sequenceFrames t id ++ fs, t'))
  ∧ (sequences t !! id = None →
     ∃ t' : Tag,
       bind (forM_ fs (AddFrame id)) (λ _, GetFrames id) t = Ok (fs, t')).
Proof.
  intros Hr Hc Hf.
  destruct (AddFrame_all_routed fs t id Hr) as (t' & Hrun & Hc' & Hf' & _ & Hs & _).
  assert (Hget : bind (forM_ fs (AddFrame id)) (λ _, GetFrames id) t
                 = Ok (sequenceFrames t id ++ fs, t')).
  { unfold bind. rewrite Hrun. rewrite GetFrames_no_pending by congruence.
    rewrite Hf', Hf. by rewrite Hs. }
  split; [by exists t'|].
  intros Hnone. exists t'. rewrite Hget. unfold sequenceFrames. by rewrite Hnone.
Qed.

(** ** The invariant of the sequences *)

Lemma grows_same (t t' : Tag) :
  ids t' = ids t → file t' = file t → originalSize t' = originalSize t →
  sequences t' = sequences t → grows t t'.
Proof.
  intros Hi Hfl Ho Hs. split; [done|]. rewrite Hs. split.
  - intros id s Hl. by exists s.
  - intros id s' Hl Hn. congruence.
Qed.

Lemma grows_refl (t : Tag) : grows t t.
Proof. by apply grows_same. Qed.

Lemma prefix_nonempty (l1 l2 : list Framer) : l1 `prefix_of` l2 → l1 ≠ [] → l2 ≠ [].
Proof. intros [k ->] Hne Happ. apply app_eq_nil in Happ as [? _]. done. Qed.

Lemma grows_trans (t1 t2 t3 : Tag) : grows t1 t2 → grows t2 t3 → grows t1 t3.
Proof.
  intros ((Hi12 & Hf12 & Ho12) & Hp12 & Hn12) ((Hi23 & Hf23 & Ho23) & Hp23 & Hn23).
  split; [repeat split; congruence|]. split.
  - intros id s Hs.
    destruct (Hp12 id s Hs) as (s2 & Hs2 & Hpre2).
    destruct (Hp23 id s2 Hs2) as (s3 & Hs3 & Hpre3).
    exists s3. split; [done|]. by etrans.
  - intros id s3 Hs3 Hnone.
    destruct (sequences t2 !! id) as [s2|] eqn:Hs2.
    + destruct (Hp23 id s2 Hs2) as (s3' & Hs3' & Hpre).
      assert (s3' = s3) as -> by congruence.
      eapply prefix_nonempty; [exact Hpre|]. by eapply Hn12.
    + by eapply Hn23.
Qed.

Lemma grows_nonEmpty (t t' : Tag) :
  grows t t' → nonEmptySequences t → nonEmptySequences t'.
Proof.
  intros (_ & Hp & Hn) Hinv id s' Hs'.
  destruct (sequences t !! id) as [s|] eqn:Hs.
  - destruct (Hp id s Hs) as (s'' & Hs'' & Hpre).
    assert (s'' = s') as -> by congruence.
    eapply prefix_nonempty; [exact Hpre|]. by eapply Hinv.
  - by eapply Hn.
Qed.

Lemma growing_keeps {A : Type} (m : TagM A) (t : Tag) :
  growing m → nonEmptySequences t → keeps m t.
Proof.
  intros Hm Hinv. destruct (Hm t) as (a & t' & Hrun & Hg).
  exists a, t'. split; [done|]. split; [|done]. by eapply grows_nonEmpty.
Qed.

Lemma growing_ret {A : Type} (a : A) : growing (ret a).
Proof. intros t. exists a, t. split; [done|]. apply grows_refl. Qed.

Lemma growing_bind {A B : Type} (m : TagM A) (k : A → TagM B) :
  growing m → (∀ a : A, growing (k a)) → growing (bind m k).
Proof.
  intros Hm Hk t. destruct (Hm t) as (a & t1 & Hrun1 & Hg1).
  destruct (Hk a t1) as (b & t2 & Hrun2 & Hg2).
  exists b, t2. split; [|by eapply grows_trans].
  unfold bind. by rewrite Hrun1.
Qed.

Lemma growing_get : growing get.
Proof. intros t. exists t, t. split; [done|]. apply grows_refl. Qed.

Lemma growing_forM_ {A : Type} (l : list A) (body : A → TagM unit) :
  (∀ x : A, growing (body x)) → growing (forM_ l body).
Proof.
  intros Hbody. induction l as [|x l IH]; simpl.
  - apply growing_ret.
  - apply growing_bind; [apply Hbody|]. intros _. apply IH.
Qed.

Lemma growing_AddFrame (id : string) (f : Framer) : growing (AddFrame id f).
Proof.
  intros t.
  destruct (AddFrame_effect t id f) as (t' & Hrun & _ & Hi & Hfile & Hsize & Hrt & Hfl).
  exists tt, t'. split; [done|]. split; [done|].
  destruct (decide (routed t id)) as [Hr|Hr].
  - destruct (Hrt Hr) as (_ & (mk & Hmk & Hnew) & Hother). split.
    + intros id' s Hs. destruct (decide (id' = id)) as [->|Hne].
      * rewrite Hs in Hnew. simpl in Hnew. eexists. split; [exact Hnew|].
        simpl. by apply prefix_app_r.
      * exists s. by rewrite Hother.
    + intros id' s' Hs' Hnone. destruct (decide (id' = id)) as [->|Hne].
      * rewrite Hnew in Hs'. injection Hs' as <-. simpl.
        intros Happ. apply app_eq_nil in Happ as [_ ?]. done.
      * rewrite Hother in Hs' by done. congruence.
  - destruct (Hfl Hr) as (Hseq & _). rewrite Hseq. split.
    + intros id' s Hs. by exists s.
    + intros id' s' Hs' Hnone. congruence.
Qed.

Lemma growing_modify_framesCoords (g : Tag → gmap string (list frameCoordinates)) :
  growing (modify (λ t, set_framesCoords t (g t))).
Proof. intros t. eexists tt, _. split; [reflexivity|]. by apply grows_same. Qed.

Lemma growing_parseFramesCoordsWithID (id : string) : growing (parseFramesCoordsWithID id).
Proof.
  unfold parseFramesCoordsWithID. apply growing_bind; [apply growing_get|].
  intros t0. destruct (framesCoords t0 !! id) as [fcs|].
  - apply growing_bind.
    + apply growing_forM_. intros fc. apply growing_AddFrame.
    + intros _. apply (growing_modify_framesCoords (λ t, delete id (framesCoords t))).
  - apply growing_ret.
Qed.

Lemma growing_parseAllFramesCoords : growing parseAllFramesCoords.
Proof.
  unfold parseAllFramesCoords. apply growing_bind; [apply growing_get|].
  intros t0. apply growing_forM_. intros id. apply growing_parseFramesCoordsWithID.
Qed.

Lemma growing_AllFrames : growing AllFrames.
Proof.
  unfold AllFrames. apply growing_bind; [apply growing_parseAllFramesCoords|].
  intros _. apply growing_bind; [apply growing_get|]. intros t0. apply growing_ret.
Qed.

Lemma growing_GetFrames (id : string) : growing (GetFrames id).
Proof.
  unfold GetFrames. apply growing_bind; [apply growing_get|]. intros t0.
  apply growing_bind.
  { case_decide; [apply growing_parseFramesCoordsWithID | apply growing_ret]. }
  intros _. apply growing_bind; [apply growing_get|]. intros t1.
  destruct (frames t1 !! id); [apply growing_ret|].
  destruct (sequences t1 !! id); apply growing_ret.
Qed.

Lemma growing_GetLastFrame (id : string) : growing (GetLastFrame id).
Proof.
  unfold GetLastFrame. apply growing_bind; [apply growing_GetFrames|].
  intros fs. case_decide; apply growing_ret.
Qed.

Lemma growing_setter (description : string) (f : Framer) :
  growing (bind get (λ t, AddFrame (ID t description) f)).
Proof. apply growing_bind; [apply growing_get|]. intros t0. apply growing_AddFrame. Qed.

Lemma checkExistenceOfSequence_idempotent (t : Tag) (id : string) (mk : unit → sequencer) :
  ∃ t1 : Tag,
    checkExistenceOfSequence id mk t = Ok (tt, t1)
    ∧ checkExistenceOfSequence id mk t1 = Ok (tt, t1)
    ∧ (is_Some (sequences t !! id) → t1 = t)
    ∧ (sequences t !! id = None → sequences t1 = <[id := mk tt]> (sequences t)).
Proof.
  unfold checkExistenceOfSequence.
  destruct (sequences t !! id) as [s|] eqn:Hs.
  - exists t. rewrite Hs. repeat split; try done.
  - eexists. split; [reflexivity|]. simpl. rewrite lookup_insert_eq.
    repeat split; try done.
Qed.

(** C8. No stored sequence is empty. A Tag without sequences satisfies
    the invariant; [checkExistenceOfSequence] is idempotent and creates
    a sequence only when there is none; and from a Tag that satisfies
    the invariant [AddFrame], the typed setters, [GetFrames] and
    [AllFrames] return, leave a Tag that satisfies it, and keep the
    frames every sequence held as a prefix of what it holds afterwards
    (insertion order). *)
Theorem sequences_stay_nonempty (t : Tag) :
  nonEmptySequences t →
  (∀ t0 : Tag, sequences t0 = ∅ → nonEmptySequences t0)
  ∧ (∀ (id : string) (mk : unit → sequencer), ∃ t1 : Tag,
       checkExistenceOfSequence id mk t = Ok (tt, t1)
       ∧ checkExistenceOfSequence id mk t1 = Ok (tt, t1)
       ∧ (is_Some (sequences t !! id) → t1 = t)
       ∧ (sequences t !! id = None → sequences t1 = <[id := mk tt]> (sequences t)))
  ∧ (∀ (id : string) (f : Framer), keeps (AddFrame id f) t)
  ∧ (∀ x : string, keeps (SetTitle x) t ∧ keeps (SetArtist x) t ∧ keeps (SetAlbum x) t
                   ∧ keeps (SetYear x) t ∧ keeps (SetGenre x) t)
  ∧ (∀ id : string, keeps (GetFrames id) t)
  ∧ keeps AllFrames t.
Proof.
  intros Hinv. split.
  { intros t0 Hempty id s. rewrite Hempty. by rewrite lookup_empty. }
  split.
  { intros id mk. apply checkExistenceOfSequence_idempotent. }
  split.
  { intros id f. apply growing_keeps; [apply growing_AddFrame | done]. }
  split.
  { intros x. repeat split; (apply growing_keeps; [apply growing_setter | done]). }
  split.
  { intros id. apply growing_keeps; [apply growing_GetFrames | done]. }
  apply growing_keeps; [apply growing_AllFrames | done].
Qed.

(** ** GetLastFrame and the typed getters *)

Lemma GetLastFrame_of_GetFrames (t t' : Tag) (id : string) (fs : list Framer) :
  GetFrames id t = Ok (fs, t') → GetLastFrame id t = Ok (lastOrNil fs, t').
Proof.
  intros Hget. unfold GetLastFrame, bind. rewrite Hget.
  unfold lastOrNil. rewrite last_lookup.
  destruct fs as [|f0 fs]; [done|].
  rewrite decide_False by done.
  unfold ret. do 3 f_equal. simpl. by rewrite Nat.sub_0_r.
Qed.

(** C7. [GetFrames(id)] returns, and [GetLastFrame(id)] returns the last
    element of that list, or nil when the list is empty, leaving the
    same Tag. In particular, on a Tag with no single frame and no
    pending coordinates under the picture identifier, after three
    picture frames A, B, C are added [GetLastFrame] returns C. *)
Theorem GetLastFrame_last (t : Tag) (id : string) :
  (∃ (fs : list Framer) (t' : Tag),
     GetFrames id t = Ok (fs, t')
     ∧ GetLastFrame id t = Ok (lastOrNil fs, t')
     ∧ (fs = [] → GetLastFrame id t = Ok (None, t'))
     ∧ (∀ (fs0 : list Framer) (f : Framer), fs = fs0 ++ [f] →
          GetLastFrame id t = Ok (f, t')))
  ∧ (∀ A B C : Framer,
       let pictureID := ID t "Attached picture" in
       framesCoords t !! pictureID = None →
       frames t !! pictureID = None →
       ∃ t' : Tag,
         bind (forM_ [A; B; C] (AddFrame pictureID)) (λ _, GetLastFrame pictureID) t
         = Ok (C, t')).
Proof.
  split.
  - destruct (growing_GetFrames id t) as (fs & t' & Hget & _).
    exists fs, t'. split; [done|].
    pose proof (GetLastFrame_of_GetFrames t t' id fs Hget) as Hlast.
    split; [done|]. split.
    + intros ->. exact Hlast.
    + intros fs0 f ->. rewrite Hlast. unfold lastOrNil. by rewrite last_snoc.
  - intros A B C pictureID Hc Hf.
    assert (Hr : routed t pictureID) by (left; done).
    destruct (AddFrame_all_routed [A; B; C] t pictureID Hr)
      as (t1 & Hrun & Hc1 & Hf1 & _ & Hs1 & _).
    exists t1. unfold bind at 1. rewrite Hrun.
    erewrite GetLastFrame_of_GetFrames; [|apply GetFrames_no_pending; congruence].
    rewrite Hf1, Hf, Hs1. unfold lastOrNil.
    rewrite (app_assoc _ [A; B] [C]). by rewrite last_snoc.
Qed.

Lemma GetTextFrame_cases (t : Tag) (id : string) :
  (∀ t' : Tag, GetLastFrame id t = Ok (None, t') →
     GetTextFrame id t = Ok (zeroTextFrame, t'))
  ∧ (∀ (tf : TextFrame) (t' : Tag), GetLastFrame id t = Ok (Some (TextFrameV tf), t') →
       GetTextFrame id t = Ok (tf, t'))
  ∧ (∀ (tyname : string) (body : list byte) (t' : Tag),
       GetLastFrame id t = Ok (Some (OtherFrameV tyname body), t') →
       ∃ msg : string, GetTextFrame id t = Panic msg).
Proof.
  unfold GetTextFrame, bind. repeat split.
  - intros t' ->. done.
  - intros tf t' ->. done.
  - intros tyname body t' ->. unfold panic. by eexists.
Qed.

Lemma getter_cases (description : string) (t : Tag) :
  getterContract
    (bind get (λ t0, bind (GetTextFrame (ID t0 description)) (λ f, ret (Text f))))
    description t.
Proof.
  destruct (GetTextFrame_cases t (ID t description)) as (Hnil & Htext & Hother).
  unfold getterContract. unfold bind at 1 3 5. unfold get. repeat split.
  - intros t' Hlast. unfold bind. by rewrite (Hnil t' Hlast).
  - intros tf t' Hlast. unfold bind. by rewrite (Htext tf t' Hlast).
  - intros tyname body t' Hlast.
    destruct (Hother tyname body t' Hlast) as (msg & Hp).
    exists msg. unfold bind. by rewrite Hp.
Qed.

(** C9. For every identifier, [GetTextFrame(id)] returns the zero
    [TextFrame] when [GetLastFrame(id)] is nil, returns the frame when
    it is a [TextFrame], and panics when it is a non-nil frame of any
    other type. [Title], [Artist], [Album], [Year] and [Genre]
    accordingly return the empty string for an absent frame and panic on
    a non-textual frame stored under their identifier. *)
Theorem GetTextFrame_unchecked_assertion (t : Tag) (id : string) :
  ((∀ t' : Tag, GetLastFrame id t = Ok (None, t') →
      GetTextFrame id t = Ok (zeroTextFrame, t'))
   ∧ (∀ (tf : TextFrame) (t' : Tag), GetLastFrame id t = Ok (Some (TextFrameV tf), t') →
        GetTextFrame id t = Ok (tf, t'))
   ∧ (∀ (tyname : string) (body : list byte) (t' : Tag),
        GetLastFrame id t = Ok (Some (OtherFrameV tyname body), t') →
        ∃ msg : string, GetTextFrame id t = Panic msg))
  ∧ getterContract Title "Title/Songname/Content description" t
  ∧ getterContract Artist "Lead artist/Lead performer/Soloist/Performing group" t
  ∧ getterContract Album "Album/Movie/Show title" t
  ∧ getterContract Year "Recording time" t
  ∧ getterContract Genre "Content type" t.
Proof.
  split; [apply GetTextFrame_cases|].
  repeat split; apply getter_cases.
Qed.

(** ** The frame serializer *)

(** C5. For a non-empty identifier and a frame, [formFrame] returns the
    bytes of the identifier, then [FormSize] of the length of the
    frame's body, then two zero bytes, then the body. *)
Theorem formFrame_layout (id : string) (fr : Frame) :
  id ≠ "" →
  formFrame id (Some fr)
  = Ok (list_byte_of_string id
          ++ FormSize (Z.of_nat (length (Body fr)))
          ++ [x00; x00]
          ++ Body fr).
Proof.
  intros Hid. unfold formFrame. rewrite decide_False by done.
  unfold bytesbufferpool_Get, writeFrameHeader. simpl.
  by rewrite <- !app_assoc.
Qed.

Lemma writeFrameGroups_blank (groups : list (string * list Framer))
    (f : Framer) (fs : list Framer) (w : list byte) :
  ("", f :: fs) ∈ groups → ∃ msg : string, writeFrameGroups groups w = Panic msg.
Proof.
  revert w. induction groups as [|[id' fs'] groups IH]; intros w Hin.
  - by apply elem_of_nil in Hin.
  - apply elem_of_cons in Hin as [Heq|Hin]; simpl.
    + injection Heq as <- <-. simpl. by eexists.
    + destruct (writeFramesOf id' fs' w) as [w'|msg]; simpl; [by apply IH | by eexists].
Qed.

(** C6. [formFrame] with the empty identifier panics, whatever the
    frame: no block is returned, the loop of [writeFrames] writes
    nothing for it, and [Save] on a Tag that stores a frame under the
    empty identifier panics with the files untouched. *)
Theorem formFrame_blank_id_panics (f : Framer) :
  formFrame "" f = Panic "there is blank ID in frames"
  ∧ (∀ (fs : list Framer) (w : list byte),
       writeFramesOf "" (f :: fs) w = Panic "there is blank ID in frames")
  ∧ (∀ (t : Tag) (w : World),
       framesCoords t = ∅ → frames t !! "" = Some f →
       ∃ msg : string, Save t w = (Panic msg, w)).
Proof.
  split; [done|]. split; [done|].
  intros t w Hc Hf.
  assert (Hall : AllFrames t
            = Ok (union_with (λ fs ss, Some (fs ++ ss))
                    ((λ frame, [frame]) <$> frames t) (seq_Frames <$> sequences t), t)).
  { unfold AllFrames, parseAllFramesCoords, bind, get. rewrite Hc.
    by rewrite map_to_list_empty. }
  set (all := union_with _ _ _) in Hall.
  assert (Hin : ∃ fs, ("", f :: fs) ∈ map_to_list all).
  { destruct (sequences t !! "") as [s|] eqn:Hs.
    - exists (seq_Frames s). apply elem_of_map_to_list. unfold all.
      rewrite lookup_union_with, !lookup_fmap, Hf, Hs. done.
    - exists []. apply elem_of_map_to_list. unfold all.
      rewrite lookup_union_with, !lookup_fmap, Hf, Hs. done. }
  destruct Hin as (fs & Hin).
  destruct (writeFrameGroups_blank _ f fs (bytesbufferpool_Get tt) Hin) as (msg & Hp).
  exists msg. unfold Save, formAllFrames, writeFrames. unfold bind at 1.
  rewrite Hall. by rewrite Hp.
Qed.

(** ** The file operations of Save, step by step *)

Lemma next_fault_fields (w w1 : World) (o : option fault) :
  next_fault w = (o, w1) →
  names w1 = names w ∧ inodes w1 = inodes w ∧ files w1 = files w
  ∧ trace w1 = trace w ∧ faults w1 = tail (faults w)
  ∧ o = default None (head (faults w)).
Proof.
  unfold next_fault. destruct (faults w) as [|x rest] eqn:Hf.
  - intros [= <- <-]. by rewrite Hf.
  - intros [= <- <-]. done.
Qed.

Lemma write_at_end (data b : list byte) : write_at (length data) b data = data ++ b.
Proof.
  unfold write_at. rewrite firstn_all, Nat.sub_diag. simpl.
  rewrite drop_ge by lia. by rewrite app_nil_r.
Qed.

Lemma firstFault_nil (n : nat) : firstFault n [] = None.
Proof. by destruct n. Qed.

Lemma firstFault_next (n : nat) (w : World) :
  firstFault (S n) (faults w)
  = match next_fault w with
    | (Some (Fault e _), _) => Some e
    | (None, w1) => firstFault n (faults w1)
    end.
Proof.
  unfold next_fault. destruct (faults w) as [|[[e k]|] rest] eqn:Hf; simpl.
  - rewrite Hf. by rewrite firstFault_nil.
  - done.
  - done.
Qed.

Lemma io_bind_Val {A B : Type} (m : IO A) (k : A → IO B) (w w' : World) (a : A) :
  m w = (Val a, w') → io_bind m k w = k a w'.
Proof. intros H. unfold io_bind. by rewrite H. Qed.

Lemma io_bind_Err {A B : Type} (m : IO A) (k : A → IO B) (w w' : World) (e : error) :
  m w = (Err e, w') → io_bind m k w = (Err e, w').
Proof. intros H. unfold io_bind. by rewrite H. Qed.

(** A call that is due to fail returns the error it is given. *)
Lemma TempFile_fault (w w1 : World) (e : error) (n : nat) :
  next_fault w = (Some (Fault e n), w1) → ∃ w' : World, TempFile w = (Err e, w').
Proof. intros H. unfold TempFile. rewrite H. by eexists. Qed.

Lemma File_Write_fault (fp : nat) (b : list byte) (w w1 : World) (e : error) (n : nat) :
  next_fault w = (Some (Fault e n), w1) → ∃ w' : World, File_Write fp b w = (Err e, w').
Proof. intros H. unfold File_Write. rewrite H. by eexists. Qed.

Lemma File_Seek_fault (fp : nat) (pos : Z) (w w1 : World) (e : error) (n : nat) :
  next_fault w = (Some (Fault e n), w1) → ∃ w' : World, File_Seek fp pos w = (Err e, w').
Proof. intros H. unfold File_Seek. rewrite H. by eexists. Qed.

Lemma io_Copy_fault (dst src : nat) (w w1 : World) (e : error) (n : nat) :
  next_fault w = (Some (Fault e n), w1) → ∃ w' : World, io_Copy dst src w = (Err e, w').
Proof.
  intros H. unfold io_Copy. rewrite H.
  destruct (remaining w1 src) as [[f rest]|]; by eexists.
Qed.

Lemma File_Stat_fault (fp : nat) (w w1 : World) (e : error) (n : nat) :
  next_fault w = (Some (Fault e n), w1) → ∃ w' : World, File_Stat fp w = (Err e, w').
Proof. intros H. unfold File_Stat. rewrite H. by eexists. Qed.

Lemma File_Chmod_fault (fp : nat) (mode : FileMode) (w w1 : World) (e : error) (n : nat) :
  next_fault w = (Some (Fault e n), w1) → ∃ w' : World, File_Chmod fp mode w = (Err e, w').
Proof. intros H. unfold File_Chmod. rewrite H. by eexists. Qed.

Lemma os_Rename_fault (old new : string) (w w1 : World) (e : error) (n : nat) :
  next_fault w = (Some (Fault e n), w1) → ∃ w' : World, os_Rename old new w = (Err e, w').
Proof. intros H. unfold os_Rename. rewrite H. by eexists. Qed.

Lemma File_Close_names_inodes (fp : nat) (w : World) :
  names (File_Close fp w).2 = names w ∧ inodes (File_Close fp w).2 = inodes w.
Proof. unfold File_Close. by destruct (open_file w fp). Qed.

Section Staged.

(** The world [w0] in which [Save] starts, with the file object [f0]
    behind the Tag's pointer [fp0], open on a file [orig]. *)
Variable w0 : World.
Variable fp0 : nat.
Variable f0 : osFile.
Variable orig : inode.
Hypothesis Hfile : files w0 !! fp0 = Some f0.
Hypothesis Hopen : f_closed f0 = false.
Hypothesis Hino : inodes w0 !! f_ino f0 = Some orig.

Let tmpname : string := fresh (dom (names w0)).
Let tmpino : nat := fresh (dom (inodes w0)).
Let newFile : nat := fresh (dom (files w0)).

(** The worlds [Save] goes through once the temporary file exists: it
    holds [data] with mode [mode], its file object stands at its end,
    and the original file object stands at offset [off]. *)
Definition staged (data : list byte) (mode : FileMode) (off : nat) (w : World) : Prop :=
  names w = <[tmpname := tmpino]> (names w0)
  ∧ inodes w = <[tmpino := mkInode data mode]> (inodes w0)
  ∧ files w = <[newFile := mkFile tmpname tmpino (length data) false]>
                (<[fp0 := mkFile (f_name f0) (f_ino f0) off false]> (files w0)).

Lemma tmpname_fresh : names w0 !! tmpname = None.
Proof. apply not_elem_of_dom, is_fresh. Qed.

Lemma tmpino_fresh : inodes w0 !! tmpino = None.
Proof. apply not_elem_of_dom, is_fresh. Qed.

Lemma newFile_fresh : files w0 !! newFile = None.
Proof. apply not_elem_of_dom, is_fresh. Qed.

Lemma newFile_ne : newFile ≠ fp0.
Proof. intros Heq. pose proof newFile_fresh as Hn. rewrite Heq in Hn. congruence. Qed.

Lemma tmpino_ne : tmpino ≠ f_ino f0.
Proof. intros Heq. pose proof tmpino_fresh as Hn. rewrite Heq in Hn. congruence. Qed.

Lemma staged_next_fault data mode off w o w1 :
  staged data mode off w → next_fault w = (o, w1) → staged data mode off w1.
Proof.
  intros (Hn & Hi & Hf) Hnf.
  destruct (next_fault_fields _ _ _ Hnf) as (Hn1 & Hi1 & Hf1 & _).
  unfold staged. by rewrite Hn1, Hi1, Hf1.
Qed.

Lemma staged_open_new data mode off w :
  staged data mode off w →
  open_file w newFile = Some (mkFile tmpname tmpino (length data) false)
  ∧ inodes w !! tmpino = Some (mkInode data mode).
Proof.
  intros (Hn & Hi & Hf). unfold open_file.
  rewrite Hf, Hi, !lookup_insert_eq. done.
Qed.

Lemma staged_open_orig data mode off w :
  staged data mode off w →
  open_file w fp0 = Some (mkFile (f_name f0) (f_ino f0) off false)
  ∧ inodes w !! f_ino f0 = Some orig.
Proof.
  intros (Hn & Hi & Hf). unfold open_file. rewrite Hf, Hi.
  pose proof newFile_ne. pose proof tmpino_ne.
  rewrite lookup_insert_ne by done. rewrite lookup_insert_eq.
  rewrite lookup_insert_ne by done. done.
Qed.

Lemma staged_do_write data mode off w b :
  staged data mode off w →
  ∃ w' : World, do_write newFile b w = Some w'
                ∧ staged (data ++ b) mode off w' ∧ faults w' = faults w.
Proof.
  intros Hst. destruct (staged_open_new _ _ _ _ Hst) as (Hop & Hin).
  destruct Hst as (Hn & Hi & Hf).
  unfold do_write. rewrite Hop. simpl. rewrite Hin. simpl.
  eexists. split; [reflexivity|]. split; [|done].
  unfold staged; simpl. split; [done|]. split.
  - rewrite Hi, insert_insert_eq. by rewrite write_at_end.
  - rewrite Hf, insert_insert_eq. by rewrite length_app.
Qed.

Lemma staged_TempFile w1 :
  next_fault w0 = (None, w1) →
  ∃ w' : World, TempFile w0 = (Val newFile, w')
                ∧ staged [] 384%N (f_off f0) w' ∧ faults w' = faults w1.
Proof.
  intros Hnf. unfold TempFile. rewrite Hnf.
  destruct (next_fault_fields _ _ _ Hnf) as (Hn & Hi & Hf & _).
  simpl. rewrite !Hn, !Hi, !Hf. eexists. split; [reflexivity|]. split; [|done].
  unfold staged; simpl. repeat split.
  f_equal. symmetry. apply insert_id. rewrite Hfile. f_equal.
  destruct f0; simpl in *. by subst.
Qed.

Lemma staged_Write data mode off w w1 b :
  staged data mode off w → next_fault w = (None, w1) →
  ∃ w' : World, File_Write newFile b w = (Val (length b), w')
                ∧ staged (data ++ b) mode off w' ∧ faults w' = faults w1.
Proof.
  intros Hst Hnf. unfold File_Write. rewrite Hnf.
  destruct (staged_do_write data mode off w1 b) as (w' & Hw & Hst' & Hfl).
  { by eapply staged_next_fault. }
  rewrite Hw. by exists w'.
Qed.

Lemma staged_Seek data mode off w w1 (pos : Z) :
  staged data mode off w → next_fault w = (None, w1) → 0 ≤ pos →
  ∃ w' : World, File_Seek fp0 pos w = (Val pos, w')
                ∧ staged data mode (Z.to_nat pos) w' ∧ faults w' = faults w1.
Proof.
  intros Hst Hnf Hpos. unfold File_Seek. rewrite Hnf.
  assert (Hst1 : staged data mode off w1) by (by eapply staged_next_fault).
  destruct (staged_open_orig _ _ _ _ Hst1) as (Hop & _). rewrite Hop. simpl.
  rewrite decide_False by lia.
  eexists. split; [reflexivity|]. split; [|done].
  destruct Hst1 as (Hn & Hi & Hf). unfold staged; simpl.
  split; [done|]. split; [done|].
  rewrite Hf. pose proof newFile_ne.
  rewrite insert_insert_ne by done. by rewrite insert_insert_eq.
Qed.

Lemma staged_Copy data mode off w w1 :
  staged data mode off w → next_fault w = (None, w1) →
  ∃ (n off' : nat) (w' : World),
    io_Copy newFile fp0 w = (Val n, w')
    ∧ staged (data ++ drop off (i_data orig)) mode off' w' ∧ faults w' = faults w1.
Proof.
  intros Hst Hnf. unfold io_Copy. rewrite Hnf.
  assert (Hst1 : staged data mode off w1) by (by eapply staged_next_fault).
  destruct (staged_open_orig _ _ _ _ Hst1) as (Hop & Hin).
  unfold remaining. rewrite Hop. simpl. rewrite Hin. simpl.
  set (rest := drop off (i_data orig)).
  assert (Hst2 : staged data mode (off + length rest) (do_read fp0 (length rest) w1)).
  { unfold do_read. rewrite Hop. simpl.
    destruct Hst1 as (Hn & Hi & Hf). unfold staged; simpl.
    split; [done|]. split; [done|].
    rewrite Hf. pose proof newFile_ne.
    rewrite insert_insert_ne by done. by rewrite insert_insert_eq. }
  destruct (staged_do_write _ _ _ _ rest Hst2) as (w' & Hw & Hst' & Hfl).
  rewrite Hw. exists (length rest), (off + length rest)%nat, w'.
  split; [done|]. split; [done|]. rewrite Hfl. unfold do_read. by rewrite Hop.
Qed.

Lemma staged_Stat data mode off w w1 :
  staged data mode off w → next_fault w = (None, w1) →
  ∃ w' : World, File_Stat fp0 w = (Val (i_mode orig), w')
                ∧ staged data mode off w' ∧ faults w' = faults w1.
Proof.
  intros Hst Hnf. unfold File_Stat. rewrite Hnf.
  assert (Hst1 : staged data mode off w1) by (by eapply staged_next_fault).
  destruct (staged_open_orig _ _ _ _ Hst1) as (Hop & Hin).
  rewrite Hop. simpl. rewrite Hin.
  eexists. split; [reflexivity|]. split; [|done]. exact Hst1.
Qed.

Lemma staged_Chmod data mode off w w1 (mode' : FileMode) :
  staged data mode off w → next_fault w = (None, w1) →
  ∃ w' : World, File_Chmod newFile mode' w = (Val tt, w')
                ∧ staged data mode' off w' ∧ faults w' = faults w1.
Proof.
  intros Hst Hnf. unfold File_Chmod. rewrite Hnf.
  assert (Hst1 : staged data mode off w1) by (by eapply staged_next_fault).
  destruct (staged_open_new _ _ _ _ Hst1) as (Hop & Hin).
  rewrite Hop. simpl. rewrite Hin.
  eexists. split; [reflexivity|]. split; [|done].
  destruct Hst1 as (Hn & Hi & Hf). unfold staged; simpl.
  split; [done|]. split; [|done]. rewrite Hi. by rewrite insert_insert_eq.
Qed.

(** After the rename the original name denotes the temporary file. *)
Lemma staged_Rename data mode off w w1 :
  staged data mode off w → next_fault w = (None, w1) →
  ∃ w' : World,
    os_Rename (File_Name w newFile) (File_Name w fp0) w = (Val tt, w')
    ∧ names w' = <[f_name f0 := tmpino]> (names w0)
    ∧ inodes w' = inodes w ∧ files w' = files w ∧ faults w' = faults w1.
Proof.
  intros Hst Hnf. unfold os_Rename. rewrite Hnf.
  destruct (next_fault_fields _ _ _ Hnf) as (Hn1 & Hi1 & Hf1 & _).
  destruct Hst as (Hn & Hi & Hf).
  assert (File_Name w newFile = tmpname) as ->.
  { unfold File_Name. by rewrite Hf, lookup_insert_eq. }
  assert (File_Name w fp0 = f_name f0) as ->.
  { unfold File_Name. rewrite Hf. pose proof newFile_ne.
    rewrite lookup_insert_ne by done. by rewrite lookup_insert_eq. }
  cbn beta iota. rewrite Hn1, Hn, lookup_insert_eq.
  eexists. split; [reflexivity|]. simpl. rewrite ?Hn1, ?Hi1, ?Hf1, ?Hn.
  repeat split; try done.
  rewrite delete_insert_eq. f_equal. apply delete_id. apply tmpname_fresh.
Qed.

Lemma Save_rest_outcome (t : Tag) (data : list byte) (mode : FileMode) (off : nat)
    (w : World) :
  0 ≤ originalSize t →
  staged data mode off w →
  ∃ w' : World,
    (io_ File_Seek fp0 (originalSize t);
     io_ io_Copy newFile fp0;
     io originalFileMode <- File_Stat fp0;
     io_ File_Chmod newFile originalFileMode;
     io_ (λ w, os_Rename (File_Name w newFile) (File_Name w fp0) w);
     io_ret (set_file t newFile)) w
    = (match firstFault 5 (faults w) with
       | Some e => Err e
       | None => Val (set_file t newFile)
       end, w')
    ∧ (firstFault 5 (faults w) = None →
       names w' = <[f_name f0 := tmpino]> (names w0)
       ∧ inodes w'
         = <[tmpino := mkInode (data ++ drop (Z.to_nat (originalSize t)) (i_data orig))
                               (i_mode orig)]> (inodes w0)).
Proof.
  intros Hsz Hst.
  rewrite (firstFault_next 4 w).
  destruct (next_fault w) as [[[e n]|] w1] eqn:Hnf1.
  { destruct (File_Seek_fault fp0 (originalSize t) _ _ _ _ Hnf1) as (w' & Hrun).
    erewrite io_bind_Err by exact Hrun. by exists w'. }
  destruct (staged_Seek _ _ _ _ _ _ Hst Hnf1 Hsz) as (wa & Hrun1 & Hst1 & Hfl1).
  erewrite io_bind_Val by exact Hrun1. rewrite <- Hfl1. clear Hrun1 Hnf1 Hfl1.
  rewrite (firstFault_next 3 wa).
  destruct (next_fault wa) as [[[e n]|] w2] eqn:Hnf2.
  { destruct (io_Copy_fault newFile fp0 _ _ _ _ Hnf2) as (w' & Hrun).
    erewrite io_bind_Err by exact Hrun. by exists w'. }
  destruct (staged_Copy _ _ _ _ _ Hst1 Hnf2) as (nb & off' & wb & Hrun2 & Hst2 & Hfl2).
  erewrite io_bind_Val by exact Hrun2. rewrite <- Hfl2. clear Hrun2 Hnf2 Hfl2.
  rewrite (firstFault_next 2 wb).
  destruct (next_fault wb) as [[[e n]|] w3] eqn:Hnf3.
  { destruct (File_Stat_fault fp0 _ _ _ _ Hnf3) as (w' & Hrun).
    erewrite io_bind_Err by exact Hrun. by exists w'. }
  destruct (staged_Stat _ _ _ _ _ Hst2 Hnf3) as (wc & Hrun3 & Hst3 & Hfl3).
  erewrite io_bind_Val by exact Hrun3. rewrite <- Hfl3. clear Hrun3 Hnf3 Hfl3.
  rewrite (firstFault_next 1 wc).
  destruct (next_fault wc) as [[[e n]|] w4] eqn:Hnf4.
  { destruct (File_Chmod_fault newFile (i_mode orig) _ _ _ _ Hnf4) as (w' & Hrun).
    erewrite io_bind_Err by exact Hrun. by exists w'. }
  destruct (staged_Chmod _ _ _ _ _ (i_mode orig) Hst3 Hnf4) as (wd & Hrun4 & Hst4 & Hfl4).
  erewrite io_bind_Val by exact Hrun4. rewrite <- Hfl4. clear Hrun4 Hnf4 Hfl4.
  rewrite (firstFault_next 0 wd).
  destruct (next_fault wd) as [[[e n]|] w5] eqn:Hnf5.
  { destruct (os_Rename_fault (File_Name wd newFile) (File_Name wd fp0) _ _ _ _ Hnf5)
      as (w' & Hrun).
    erewrite io_bind_Err by exact Hrun. by exists w'. }
  destruct (staged_Rename _ _ _ _ _ Hst4 Hnf5) as (we & Hrun5 & Hn5 & Hi5 & Hf5 & Hfl5).
  erewrite io_bind_Val by exact Hrun5.
  exists we. split; [done|]. intros _. split; [done|].
  rewrite Hi5. by destruct Hst4 as (_ & -> & _).
Qed.

Lemma Save_io_outcome (t : Tag) (frames : list byte) :
  file t = fp0 → 0 ≤ originalSize t →
  ∃ w' : World,
    Save_io t frames w0
    = (match firstFault 8 (faults w0) with
       | Some e => Err e
       | None => Val (set_file t newFile)
       end, w')
    ∧ (firstFault 8 (faults w0) = None →
       names w' = <[f_name f0 := tmpino]> (names w0)
       ∧ inodes w'
         = <[tmpino := mkInode (formTagHeader (FormSize (Z.of_nat (length frames)))
                                  ++ frames
                                  ++ drop (Z.to_nat (originalSize t)) (i_data orig))
                               (i_mode orig)]> (inodes w0)).
Proof.
  intros Hfp Hsz. unfold Save_io. rewrite Hfp.
  rewrite (firstFault_next 7 w0).
  destruct (next_fault w0) as [[[e n]|] w1] eqn:Hnf1.
  { destruct (TempFile_fault _ _ _ _ Hnf1) as (w' & Hrun).
    erewrite io_bind_Err by exact Hrun. by exists w'. }
  destruct (staged_TempFile _ Hnf1) as (wa & Hrun1 & Hst1 & Hfl1).
  erewrite io_bind_Val by exact Hrun1. rewrite <- Hfl1. clear Hrun1 Hnf1 Hfl1.
  set (hdr := formTagHeader (FormSize (Z.of_nat (length frames)))).
  rewrite (firstFault_next 6 wa).
  destruct (next_fault wa) as [[[e n]|] w2] eqn:Hnf2.
  { destruct (File_Write_fault newFile hdr _ _ _ _ Hnf2) as (w' & Hrun).
    erewrite io_bind_Err by exact Hrun. by exists w'. }
  destruct (staged_Write _ _ _ _ _ hdr Hst1 Hnf2) as (wb & Hrun2 & Hst2 & Hfl2).
  erewrite io_bind_Val by exact Hrun2. rewrite <- Hfl2. clear Hrun2 Hnf2 Hfl2.
  rewrite (firstFault_next 5 wb).
  destruct (next_fault wb) as [[[e n]|] w3] eqn:Hnf3.
  { destruct (File_Write_fault newFile frames _ _ _ _ Hnf3) as (w' & Hrun).
    erewrite io_bind_Err by exact Hrun. by exists w'. }
  destruct (staged_Write _ _ _ _ _ frames Hst2 Hnf3) as (wc & Hrun3 & Hst3 & Hfl3).
  erewrite io_bind_Val by exact Hrun3. rewrite <- Hfl3. clear Hrun3 Hnf3 Hfl3.
  destruct (Save_rest_outcome t _ _ _ wc Hsz Hst3) as (wd & Hrun4 & Hfin).
  unfold defer. rewrite Hrun4.
  eexists. split; [reflexivity|].
  intros Hnone. destruct (Hfin Hnone) as (Hn & Hi).
  destruct (File_Close_names_inodes fp0 wd) as (-> & ->).
  rewrite Hn, Hi. by rewrite <- app_assoc.
Qed.

End Staged.

(** ** No call of Save touches a file that existed *)

Lemma hoare_bind {A B : Type} (P : World → Prop) (Q : A → World → Prop)
    (R : B → World → Prop) (E : World → Prop) (m : IO A) (k : A → IO B) :
  hoare P m Q E → (∀ a : A, hoare (Q a) (k a) R E) → hoare P (io_bind m k) R E.
Proof.
  intros Hm Hk w w' r HP. unfold io_bind.
  destruct (m w) as [[a|e] w1] eqn:Hrun.
  - intros Hrun2. specialize (Hm w w1 (Val a) HP Hrun). simpl in Hm.
    by apply (Hk a w1 w' r).
  - intros [= <- <-]. by apply (Hm w w1 (Err e) HP Hrun).
Qed.

Lemma hoare_defer {A B : Type} (P : World → Prop) (Q Q' : A → World → Prop)
    (E E' : World → Prop) (cleanup : IO B) (body : IO A) :
  hoare P body Q E →
  (∀ (a : A) (w : World), Q a w → Q' a (cleanup w).2) →
  (∀ w : World, E w → E' (cleanup w).2) →
  hoare P (defer cleanup body) Q' E'.
Proof.
  intros Hb HQ HE w w' r HP. unfold defer.
  destruct (body w) as [r1 w1] eqn:Hrun. intros [= <- <-].
  specialize (Hb w w1 r1 HP Hrun). destruct r1; auto.
Qed.


Lemma open_file_Some (w : World) (fp : nat) (f : osFile) :
  open_file w fp = Some f → files w !! fp = Some f ∧ f_closed f = false.
Proof.
  unfold open_file. destruct (files w !! fp) as [g|]; [|done].
  destruct (f_closed g) eqn:Hc; [done|]. by intros [= <-].
Qed.

Section Sideways.

Variable w0 : World.
Variable newFile tmpino : nat.






















End Sideways.




(** ** A call that returns a value was not due to fail *)












(** ** Save *)

Lemma formAllFrames_fields (t t1 : Tag) (frames : list byte) :
  formAllFrames t = Ok (frames, t1) →
  file t1 = file t ∧ originalSize t1 = originalSize t.
Proof.
  unfold formAllFrames, writeFrames, bind.
  destruct (growing_AllFrames t) as (all & t' & -> & (_ & Hf & Ho) & _).
  destruct (writeFrameGroups _ _); [|done]. by intros [= <- <-].
Qed.

(** What [Save] does on a Tag whose frames form without a panic and
    whose file object is open on a file of the world. *)
Lemma Save_outcome (t t1 : Tag) (frames : list byte) (w : World) (f0 : osFile)
    (orig : inode) :
  formAllFrames t = Ok (frames, t1) →
  files w !! file t = Some f0 → f_closed f0 = false →
  inodes w !! f_ino f0 = Some orig → 0 ≤ originalSize t →
  ∃ w' : World,
    Save t w
    = (match firstFault 8 (faults w) with
       | Some e => Ok (Some e, t1)
       | None => Ok (None, set_file t1 (fresh (dom (files w))))
       end, w')
    ∧ (firstFault 8 (faults w) = None →
       names w' = <[f_name f0 := fresh (dom (inodes w))]> (names w)
       ∧ inodes w'
         = <[fresh (dom (inodes w)) :=
               mkInode (formTagHeader (FormSize (Z.of_nat (length frames)))
                          ++ frames
                          ++ drop (Z.to_nat (originalSize t)) (i_data orig))
                       (i_mode orig)]> (inodes w)).
Proof.
  intros Hform Hfile Hopen Hino Hsz.
  destruct (formAllFrames_fields _ _ _ Hform) as (Hf1 & Ho1).
  destruct (Save_io_outcome w (file t) f0 orig Hfile Hopen Hino t1 frames Hf1)
    as (w' & Hrun & Hfin); [lia|].
  exists w'. unfold Save. rewrite Hform, Hrun. rewrite Ho1 in Hfin.
  split; [|done]. by destruct (firstFault 8 (faults w)).
Qed.

(** C2. [Save] keeps the audio payload. When the Tag's file object is
    open on a file made of [originalSize] bytes of tag region followed
    by the payload, a [Save] that returns no error leaves under the
    original name a file made of the new header, the new frames and
    then the payload, byte for byte, whatever the length of the new
    frames; its last bytes, as many as the payload has, are the
    payload, and its mode is the original one. Such a [Save] exists:
    when the frames form and no call is due to fail, [Save] returns no
    error. *)
Theorem Save_preserves_payload (t : Tag) (w : World) (f0 : osFile)
    (tagRegion payload : list byte) (mode : FileMode) :
  files w !! file t = Some f0 → f_closed f0 = false →
  inodes w !! f_ino f0 = Some (mkInode (tagRegion ++ payload) mode) →
  originalSize t = Z.of_nat (length tagRegion) →
  (∀ (t' : Tag) (w' : World),
     Save t w = (Ok (None, t'), w') →
     ∃ (frames : list byte) (t1 : Tag) (ino : nat) (x : inode),
       formAllFrames t = Ok (frames, t1)
       ∧ names w' !! f_name f0 = Some ino
       ∧ inodes w' !! ino = Some x
       ∧ i_data x = formTagHeader (FormSize (Z.of_nat (length frames))) ++ frames ++ payload
       ∧ drop (length (i_data x) - length payload) (i_data x) = payload
       ∧ i_mode x = mode)
  ∧ (∀ (frames : list byte) (t1 : Tag),
       formAllFrames t = Ok (frames, t1) → firstFault 8 (faults w) = None →
       ∃ (t' : Tag) (w' : World), Save t w = (Ok (None, t'), w')).
Proof.
  intros Hfile Hopen Hino Hsz.
  assert (Hdrop : drop (Z.to_nat (originalSize t)) (tagRegion ++ payload) = payload).
  { rewrite Hsz, Nat2Z.id. by rewrite drop_app_length. }
  split.
  - intros t' w' Hsave.
    destruct (formAllFrames t) as [[frames t1]|msg] eqn:Hform.
    2: { unfold Save in Hsave. by rewrite Hform in Hsave. }
    destruct (Save_outcome t t1 frames w f0 _ Hform Hfile Hopen Hino) as (w2 & Hrun & Hfin);
      [lia|].
    destruct (firstFault 8 (faults w)) as [e|] eqn:Hff.
    { rewrite Hrun in Hsave. done. }
    rewrite Hrun in Hsave. injection Hsave as <- <-.
    destruct (Hfin eq_refl) as (Hn & Hi). simpl in Hi. rewrite Hdrop in Hi.
    eexists frames, t1, (fresh (dom (inodes w))), _.
    split; [done|]. rewrite Hn, Hi, !lookup_insert_eq.
    split; [done|]. split; [done|]. simpl. split; [done|]. split; [|done].
    rewrite !length_app.
    replace (length (formTagHeader (FormSize (Z.of_nat (length frames))))
             + (length frames + length payload) - length payload)%nat
      with (length (formTagHeader (FormSize (Z.of_nat (length frames)))
                    ++ frames)) by (rewrite length_app; lia).
    rewrite app_assoc. by rewrite drop_app_length.
  - intros frames t1 Hform Hnone.
    destruct (Save_outcome t t1 frames w f0 _ Hform Hfile Hopen Hino) as (w2 & Hrun & _);
      [lia|].
    rewrite Hnone in Hrun. by eexists _, w2.
Qed.

Lemma GetLastFrame_of_GetFrames_last (t t' : Tag) (id : string) (f : Framer) :
  (∃ fs0 : list Framer, GetFrames id t = Ok (fs0 ++ [f], t')) →
  GetLastFrame id t = Ok (f, t').
Proof.
  intros (fs0 & Hget). rewrite (GetLastFrame_of_GetFrames t t' id _ Hget).
  unfold lastOrNil. by rewrite last_snoc.
Qed.


Lemma AddFrame_then_last (t : Tag) (id : string) (f : Framer) :
  framesCoords t !! id = None →
  (routed t id → frames t !! id = None) →
  ∃ t1 : Tag,
    AddFrame id f t = Ok (tt, t1)
    ∧ ids t1 = ids t
    ∧ GetLastFrame id t1 = Ok (f, t1).
Proof.
  intros Hc Hf.
  destruct (AddFrame_effect t id f) as (t1 & Hadd & Hc1 & Hi1 & _ & _ & Hrt & Hfl).
  exists t1. split; [done|]. split; [done|].
  apply GetLastFrame_of_GetFrames_last.
  rewrite GetFrames_no_pending by congruence.
  destruct (decide (routed t id)) as [Hr|Hr].
  - destruct (Hrt Hr) as (Hfr & (mk & Hmk & Hnew) & _).
    rewrite Hfr, (Hf Hr). unfold sequenceFrames. rewrite Hnew. simpl.
    by exists (seq_frames (default mk (sequences t !! id))).
  - destruct (Hfl Hr) as (_ & Hnew & _). rewrite Hnew. by exists [].
Qed.

Lemma set_then_get (description x : string) (t : Tag) :
  settled t description →
  ∃ t' : Tag,
    bind (bind get (λ t0, AddFrame (ID t0 description)
                            (Some (TextFrameV (mkTextFrame ENUTF8 x)))))
      (λ _, bind get (λ t0, bind (GetTextFrame (ID t0 description)) (λ f, ret (Text f))))
      t
    = Ok (x, t').
Proof.
  intros (Hc & Hf).
  set (fr := Some (TextFrameV (mkTextFrame ENUTF8 x))).
  destruct (AddFrame_then_last t (ID t description) fr Hc Hf) as (t1 & Hadd & Hi & Hlast).
  exists t1. unfold bind at 1. unfold bind at 1. unfold get at 1. rewrite Hadd.
  unfold bind at 1. unfold get at 1.
  assert (ID t1 description = ID t description) as -> by (unfold ID; by rewrite Hi).
  destruct (GetTextFrame_cases t1 (ID t description)) as (_ & Htext & _).
  unfold bind. by rewrite (Htext _ _ Hlast).
Qed.

(** ** Retrieval: misses, the frame just added, other identifiers *)

(** X1. A lookup miss is not an error. For an identifier with nothing
    pending, no single frame and no frame in a sequence (the sequence
    absent, or present and empty), [GetFrames] returns the empty list,
    [GetLastFrame] nil and [GetTextFrame] the zero [TextFrame], and the
    Tag is left as it was. *)
Theorem lookup_miss (t : Tag) (id : string) :
  framesCoords t !! id = None →
  frames t !! id = None →
  sequenceFrames t id = [] →
  GetFrames id t = Ok ([], t)
  ∧ GetLastFrame id t = Ok (None, t)
  ∧ GetTextFrame id t = Ok (zeroTextFrame, t).
Proof.
  intros Hc Hf Hs.
  assert (Hget : GetFrames id t = Ok ([], t)).
  { rewrite GetFrames_no_pending by done. by rewrite Hf, Hs. }
  assert (Hlast : GetLastFrame id t = Ok (None, t)).
  { by rewrite (GetLastFrame_of_GetFrames t t id [] Hget). }
  repeat split; try done.
  destruct (GetTextFrame_cases t id) as (Hnil & _). by apply Hnil.
Qed.

(** X2. The frame just added is the last frame. For every identifier
    with nothing pending (and, when it is routed, no single frame stored
    under it), [AddFrame(id, f)] returns and [GetLastFrame(id)] then
    returns [f], leaving the Tag that [AddFrame] left. *)
Theorem GetLastFrame_after_AddFrame (t : Tag) (id : string) (f : Framer) :
  framesCoords t !! id = None →
  (routed t id → frames t !! id = None) →
  ∃ t1 : Tag,
    AddFrame id f t = Ok (tt, t1)
    ∧ ids t1 = ids t
    ∧ GetLastFrame id t1 = Ok (f, t1).
Proof. apply AddFrame_then_last. Qed.

(** X3. A typed setter followed by its getter gives the text back. When
    the identifier of the description is [settled], [SetTitle(x)] then
    [Title()] returns [x], and likewise for artist, album, year and
    genre. *)
Theorem setter_getter_round_trip (t : Tag) (x : string) :
  (settled t "Title/Songname/Content description" →
     ∃ t' : Tag, bind (SetTitle x) (λ _, Title) t = Ok (x, t'))
  ∧ (settled t "Lead artist/Lead performer/Soloist/Performing group" →
       ∃ t' : Tag, bind (SetArtist x) (λ _, Artist) t = Ok (x, t'))
  ∧ (settled t "Album/Movie/Show title" →
       ∃ t' : Tag, bind (SetAlbum x) (λ _, Album) t = Ok (x, t'))
  ∧ (settled t "Recording time" →
       ∃ t' : Tag, bind (SetYear x) (λ _, Year) t = Ok (x, t'))
  ∧ (settled t "Content type" →
       ∃ t' : Tag, bind (SetGenre x) (λ _, Genre) t = Ok (x, t')).
Proof.
  repeat split; apply set_then_get.
Qed.

(** X4. [AddFrame] under one identifier does not show under another.
    For [id'] other than [id] with nothing pending, [GetFrames(id')]
    returns after [AddFrame(id, f)] the list it returned before. *)
Theorem AddFrame_other_identifier (t : Tag) (id id' : string) (f : Framer) :
  id' ≠ id →
  framesCoords t !! id' = None →
  ∃ (t1 : Tag) (fs : list Framer),
    AddFrame id f t = Ok (tt, t1)
    ∧ GetFrames id' t = Ok (fs, t)
    ∧ GetFrames id' t1 = Ok (fs, t1).
Proof.
  intros Hne Hc.
  destruct (AddFrame_effect t id f) as (t1 & Hadd & Hc1 & _ & _ & _ & Hrt & Hfl).
  eexists t1, _. split; [done|].
  rewrite !GetFrames_no_pending by congruence. split; [reflexivity|].
  unfold sequenceFrames.
  destruct (decide (routed t id)) as [Hr|Hr].
  - destruct (Hrt Hr) as (-> & _ & Hother). by rewrite (Hother id' Hne).
  - destruct (Hfl Hr) as (-> & _ & Hother). by rewrite (Hother id' Hne).
Qed.

(** ** AllFrames *)

Lemma AllFrames_no_pending (t : Tag) :
  framesCoords t = ∅ →
  AllFrames t
  = Ok (union_with (λ fs ss, Some (fs ++ ss))
          ((λ frame, [frame]) <$> frames t) (seq_Frames <$> sequences t), t).
Proof.
  intros Hc. unfold AllFrames, parseAllFramesCoords, bind, get. rewrite Hc.
  by rewrite map_to_list_empty.
Qed.

Lemma AllFrames_entry (t : Tag) (id : string) :
  union_with (λ fs ss, Some (fs ++ ss))
    ((λ frame, [frame]) <$> frames t) (seq_Frames <$> sequences t) !! id
  = match frames t !! id, sequences t !! id with
    | Some f, Some s => Some (f :: seq_Frames s)
    | Some f, None => Some [f]
    | None, Some s => Some (seq_Frames s)
    | None, None => None
    end.
Proof.
  rewrite lookup_union_with, !lookup_fmap.
  by destruct (frames t !! id), (sequences t !! id).
Qed.

(** X5. [AllFrames] and [GetFrames] on a Tag with nothing pending. The
    Tag is left as it was; the entry of an identifier is its single
    frame, if any, followed by the frames of its sequence, if any, and is
    missing exactly when the Tag stores neither; [GetFrames(id)] returns
    a prefix of that entry, the whole of it unless a single frame hides a
    sequence that is not empty. *)
Theorem AllFrames_and_GetFrames (t : Tag) :
  framesCoords t = ∅ →
  ∃ all : gmap string (list Framer),
    AllFrames t = Ok (all, t)
    ∧ ∀ id : string,
        (all !! id = None ↔ frames t !! id = None ∧ sequences t !! id = None)
        ∧ ∃ fs : list Framer,
            GetFrames id t = Ok (fs, t)
            ∧ fs `prefix_of` default [] (all !! id)
            ∧ (frames t !! id = None ∨ sequenceFrames t id = [] →
               fs = default [] (all !! id))
            ∧ (∀ f : Framer, frames t !! id = Some f →
               fs = [f] ∧ default [] (all !! id) = f :: sequenceFrames t id).
Proof.
  intros Hc. eexists. split; [by apply AllFrames_no_pending|].
  intros id. rewrite AllFrames_entry. split.
  { destruct (frames t !! id), (sequences t !! id); split; try done; intros [? ?]; done. }
  eexists. split.
  { apply GetFrames_no_pending. rewrite Hc. apply lookup_empty. }
  unfold sequenceFrames.
  destruct (frames t !! id) as [f|], (sequences t !! id) as [s|]; simpl.
  - split; [by apply (prefix_app_r [f] [f] (seq_Frames s))|].
    split; [intros [?| ->]; done|]. by intros f' [= <-].
  - split; [done|]. split; [done|]. by intros f' [= <-].
  - split; [done|]. split; done.
  - split; [done|]. split; done.
Qed.

(** ** When the frames serialize *)

Lemma formFrame_Ok_iff (id : string) (f : Framer) :
  (∃ b : list byte, formFrame id f = Ok b) ↔ id ≠ "" ∧ f ≠ None.
Proof.
  unfold formFrame. destruct (decide (id = "")) as [->|Hid].
  - split; [by intros [b Hb] | by intros [? _]].
  - destruct f as [fr|].
    + split; [done | intros _; by eexists].
    + split; [by intros [b Hb] | by intros [_ ?]].
Qed.

Lemma writeFramesOf_Ok_iff (id : string) (fs : list Framer) (w : list byte) :
  (∃ w' : list byte, writeFramesOf id fs w = Ok w') ↔ serializable id fs.
Proof.
  revert w. induction fs as [|f fs IH]; intros w; simpl.
  - split; [by left | intros _; by eexists].
  - split.
    + intros [w' Hw]. right.
      destruct (formFrame id f) as [b|msg] eqn:Hb; [|done]. simpl in Hw.
      assert (Hf : id ≠ "" ∧ f ≠ None) by (apply formFrame_Ok_iff; by exists b).
      destruct Hf as [Hid Hf]. split; [done|]. constructor; [done|].
      assert (Hs : serializable id fs) by (apply (IH (w ++ b)); by exists w').
      destruct Hs as [->|[_ ?]]; [by constructor | done].
    + intros [?|[Hid Hall]]; [done|].
      apply Forall_cons_1 in Hall as [Hf Hall].
      destruct (proj2 (formFrame_Ok_iff id f) (conj Hid Hf)) as [b ->]. simpl.
      apply IH. right. done.
Qed.

Lemma writeFrameGroups_Ok_iff (groups : list (string * list Framer)) (w : list byte) :
  (∃ w' : list byte, writeFrameGroups groups w = Ok w')
  ↔ Forall (λ g : string * list Framer, serializable g.1 g.2) groups.
Proof.
  revert w. induction groups as [|[id fs] groups IH]; intros w; simpl.
  - split; [by constructor | intros _; by eexists].
  - split.
    + intros [w' Hw].
      destruct (writeFramesOf id fs w) as [w1|msg] eqn:H1; [|done]. simpl in Hw.
      constructor.
      * apply (writeFramesOf_Ok_iff id fs w). by exists w1.
      * apply (IH w1). by exists w'.
    + intros Hall. apply Forall_cons_1 in Hall as [Hg Hall]. simpl in Hg.
      destruct (proj2 (writeFramesOf_Ok_iff id fs w) Hg) as [w1 ->]. simpl.
      by apply IH.
Qed.

Lemma formAllFrames_Ok_iff (t : Tag) :
  framesCoords t = ∅ →
  (∃ (frames : list byte) (t' : Tag), formAllFrames t = Ok (frames, t')) ↔ storable t.
Proof.
  intros Hc. unfold formAllFrames, writeFrames. unfold bind at 1.
  rewrite (AllFrames_no_pending t Hc).
  set (all := union_with _ _ _).
  assert (Hgroups : (∃ w', writeFrameGroups (map_to_list all) (bytesbufferpool_Get tt) = Ok w')
                    ↔ ∀ id fs, all !! id = Some fs → serializable id fs).
  { rewrite writeFrameGroups_Ok_iff, Forall_forall. split.
    - intros H id fs Hl. apply (H (id, fs)). apply list_elem_of_In.
      by apply elem_of_map_to_list.
    - intros H [id fs] Hin. apply list_elem_of_In, elem_of_map_to_list in Hin.
      by apply H. }
  assert (Hentries : (∀ id fs, all !! id = Some fs → serializable id fs) ↔ storable t).
  { unfold all. split.
    - intros H. split.
      + intros id f Hf. specialize (H id). rewrite AllFrames_entry, Hf in H.
        destruct (sequences t !! id) as [s|];
          (destruct (H _ eq_refl) as [?|[Hid Hall]]; [done|]);
          apply Forall_cons_1 in Hall as [? _]; done.
      + intros id s Hs. specialize (H id). rewrite AllFrames_entry, Hs in H.
        destruct (frames t !! id) as [f|]; [|by apply H].
        destruct (H _ eq_refl) as [?|[Hid Hall]]; [done|].
        apply Forall_cons_1 in Hall as [_ ?]. by right.
    - intros [Hfr Hsq] id fs. rewrite AllFrames_entry.
      destruct (frames t !! id) as [f|] eqn:Hf, (sequences t !! id) as [s|] eqn:Hs;
        intros [= <-].
      + destruct (Hfr id f Hf) as [Hid Hnil]. right. split; [done|].
        constructor; [done|].
        destruct (Hsq id s Hs) as [->|[_ ?]]; [by constructor | done].
      + destruct (Hfr id f Hf) as [Hid Hnil]. right. split; [done|].
        by constructor.
      + by apply Hsq. }
  rewrite <- Hentries, <- Hgroups. split.
  - intros (frames & t' & Hrun).
    destruct (writeFrameGroups _ _) as [w'|msg]; [by exists w' | done].
  - intros (w' & ->). by eexists _, _.
Qed.

Lemma Save_Panic_iff (t : Tag) (w : World) :
  framesCoords t = ∅ →
  (∃ msg : string, Save t w = (Panic msg, w)) ↔ ¬ storable t.
Proof.
  intros Hc. pose proof (formAllFrames_Ok_iff t Hc) as Hiff. unfold Save. split.
  - intros [msg Hp] Hst. apply Hiff in Hst as (frames & t' & Hrun).
    rewrite Hrun in Hp. by destruct (Save_io t' frames w) as [[?|?] ?].
  - intros Hn. destruct (formAllFrames t) as [[frames t']|msg].
    + exfalso. apply Hn, Hiff. by eexists _, _.
    + by exists msg.
Qed.

(** X6. When [Save] panics. On a Tag with nothing pending the frames
    form, and [Save] returns (an error or none), exactly when the Tag is
    [storable]: no single frame is nil or stored under the empty
    identifier, and no sequence that holds frames is stored under the
    empty identifier or holds a nil frame. Otherwise [Save] panics and
    leaves the world as it was. *)
Theorem Save_panics_exactly (t : Tag) :
  framesCoords t = ∅ →
  ((∃ (frames : list byte) (t' : Tag), formAllFrames t = Ok (frames, t')) ↔ storable t)
  ∧ (∀ w : World,
       (storable t → ∃ (r : option error * Tag) (w' : World), Save t w = (Ok r, w'))
       ∧ ((∃ msg : string, Save t w = (Panic msg, w)) ↔ ¬ storable t)).
Proof.
  intros Hc. split; [by apply formAllFrames_Ok_iff|].
  intros w. split; [|by apply Save_Panic_iff].
  intros Hst. apply (formAllFrames_Ok_iff t Hc) in Hst as (frames & t' & Hrun).
  unfold Save. rewrite Hrun.
  destruct (Save_io t' frames w) as [[t2|e] w']; by eexists _, _.
Qed.

Lemma unknown_description_breaks (t : Tag) (description : string) (f : Framer) :
  ids t !! description = None →
  framesCoords t = ∅ →
  breaksSave (AddFrame (ID t description) f) t.
Proof.
  intros Hd Hc.
  assert (Hid : ID t description = "") by (unfold ID; by rewrite Hd).
  rewrite Hid.
  destruct (AddFrame_effect t "" f) as (t1 & Hadd & Hc1 & _ & _ & _ & Hrt & Hfl).
  exists t1. split; [done|]. intros w.
  apply Save_Panic_iff; [congruence|].
  intros [Hfr Hsq].
  destruct (decide (routed t "")) as [Hr|Hr].
  - destruct (Hrt Hr) as (_ & (mk & Hmk & Hnew) & _).
    destruct (Hsq "" _ Hnew) as [Hnil|[? _]]; [|done].
    simpl in Hnil. by apply app_eq_nil in Hnil as [_ ?].
  - destruct (Hfl Hr) as (_ & Hnew & _). by destruct (Hfr "" f Hnew).
Qed.

(** X7. An unknown description breaks [Save]. When the table [ids] has
    no entry for a description, [ID] gives the empty identifier, and on a
    Tag with nothing pending a frame added under it, or set by the typed
    setter of that description, is accepted: the call returns, and
    [Save] then panics, in whatever world, without touching it. *)
Theorem unknown_description_breaks_Save (t : Tag) :
  framesCoords t = ∅ →
  (∀ (description : string) (f : Framer),
     ids t !! description = None →
     ID t description = "" ∧ breaksSave (AddFrame (ID t description) f) t)
  ∧ (∀ x : string,
       (ids t !! "Title/Songname/Content description" = None → breaksSave (SetTitle x) t)
       ∧ (ids t !! "Lead artist/Lead performer/Soloist/Performing group" = None →
          breaksSave (SetArtist x) t)
       ∧ (ids t !! "Album/Movie/Show title" = None → breaksSave (SetAlbum x) t)
       ∧ (ids t !! "Recording time" = None → breaksSave (SetYear x) t)
       ∧ (ids t !! "Content type" = None → breaksSave (SetGenre x) t)).
Proof.
  intros Hc. split.
  - intros description f Hd. split; [unfold ID; by rewrite Hd|].
    by apply unknown_description_breaks.
  - intros x. repeat split; intros Hd;
      apply (unknown_description_breaks t _ (Some (TextFrameV (mkTextFrame ENUTF8 x))) Hd Hc).
Qed.

(** ** Save needs an open file *)

Lemma closedFile_not_open (w : World) (fp : nat) :
  closedFile w fp → open_file w fp = None.
Proof. intros (f & Hf & Hc). unfold open_file. by rewrite Hf, Hc. Qed.

Lemma closedFile_fields (w w' : World) (fp : nat) :
  files w' = files w → closedFile w fp → closedFile w' fp.
Proof. intros Hf. unfold closedFile. by rewrite Hf. Qed.

Lemma closedFile_do_write (w w' : World) (fp fp' : nat) (b : list byte) :
  do_write fp' b w = Some w' → closedFile w fp → closedFile w' fp.
Proof.
  unfold do_write. intros Hw Hcl.
  destruct (open_file w fp') as [f|] eqn:Hop; [|done].
  destruct (inodes w !! f_ino f); [|done]. injection Hw as <-.
  destruct Hcl as (g & Hg & Hc). exists g. split; [|done]. simpl.
  rewrite lookup_insert_ne; [done|].
  intros ->. apply open_file_Some in Hop as (Hf & Ho). congruence.
Qed.

Lemma closedFile_TempFile (fp : nat) :
  hoare (λ w, closedFile w fp) TempFile (λ _ w, closedFile w fp) (λ _, True).
Proof.
  intros w w' r Hcl. unfold TempFile.
  destruct (next_fault w) as [[[e n]|] w1] eqn:Hnf; intros [= <- <-]; [done|].
  destruct (next_fault_fields _ _ _ Hnf) as (_ & _ & Hf & _).
  destruct Hcl as (g & Hg & Hc). exists g. split; [|done]. simpl.
  rewrite Hf. rewrite lookup_insert_ne; [done|].
  intros Heq. pose proof (is_fresh (dom (files w))) as Hfr.
  rewrite Heq in Hfr. apply Hfr, elem_of_dom. by exists g.
Qed.

Lemma closedFile_Write (fp fp' : nat) (b : list byte) :
  hoare (λ w, closedFile w fp) (File_Write fp' b) (λ _ w, closedFile w fp) (λ _, True).
Proof.
  intros w w' r Hcl. unfold File_Write.
  destruct (next_fault w) as [[[e n]|] w1] eqn:Hnf.
  { by intros [= <- <-]. }
  destruct (next_fault_fields _ _ _ Hnf) as (_ & _ & Hf & _).
  destruct (do_write fp' b w1) as [w2|] eqn:Hw; intros [= <- <-]; [|done].
  eapply closedFile_do_write; [exact Hw|]. by eapply closedFile_fields.
Qed.

Lemma closedFile_Seek (fp : nat) (pos : Z) :
  hoare (λ w, closedFile w fp) (File_Seek fp pos) (λ _ _, False) (λ _, True).
Proof.
  intros w w' r Hcl. unfold File_Seek.
  destruct (next_fault w) as [[[e n]|] w1] eqn:Hnf.
  { by intros [= <- <-]. }
  destruct (next_fault_fields _ _ _ Hnf) as (_ & _ & Hf & _).
  rewrite (closedFile_not_open w1 fp) by (by eapply closedFile_fields).
  by intros [= <- <-].
Qed.

Lemma hoare_False {A : Type} (m : IO A) (Q : A → World → Prop) :
  hoare (λ _, False) m Q (λ _, True).
Proof. by intros w w' r []. Qed.

(** With the Tag's file closed, the file operations of [Save] end in an
    error. *)
Lemma Save_io_closed (t t2 : Tag) (frames : list byte) (w w' : World) :
  closedFile w (file t) → Save_io t frames w ≠ (Val t2, w').
Proof.
  intros Hcl Hrun.
  assert (Hh : hoare (λ w, closedFile w (file t)) (Save_io t frames)
                 (λ _ _, False) (λ _, True)).
  { unfold Save_io.
    eapply hoare_bind; [apply closedFile_TempFile|]. intros newFile.
    eapply hoare_bind; [apply closedFile_Write|]. intros ?.
    eapply hoare_bind; [apply closedFile_Write|]. intros ?.
    eapply (hoare_defer _ (λ _ _, False) _ (λ _, True)); [|done|done].
    eapply hoare_bind; [apply closedFile_Seek|]. intros ?.
    apply hoare_False. }
  exact (Hh w w' (Val t2) Hcl Hrun).
Qed.

Lemma File_Close_closes (w : World) (fp : nat) :
  is_Some (files w !! fp) → closedFile (File_Close fp w).2 fp.
Proof.
  intros [f Hf]. unfold File_Close, open_file. rewrite Hf.
  destruct (f_closed f) eqn:Hc; simpl.
  - by exists f.
  - eexists. split; [apply lookup_insert_eq | done].
Qed.

Lemma Save_closed (t t' : Tag) (w w' : World) :
  closedFile w (file t) → Save t w ≠ (Ok (None, t'), w').
Proof.
  intros Hcl. unfold Save.
  destruct (formAllFrames t) as [[frames t1]|msg] eqn:Hform; [|done].
  destruct (formAllFrames_fields _ _ _ Hform) as (Hf1 & _).
  destruct (Save_io t1 frames w) as [[t2|e] w2] eqn:Hrun; [|done].
  exfalso. eapply (Save_io_closed t1 t2 frames w w2); [by rewrite Hf1 | done].
Qed.

(** X8. [Save] needs the Tag's file open. On a Tag whose file object
    has been closed [Save] never returns nil, whatever the calls do; in
    particular not after [Close]. *)
Theorem Save_after_Close_fails (t : Tag) (w : World) :
  (closedFile w (file t) → ∀ (t' : Tag) (w' : World), Save t w ≠ (Ok (None, t'), w'))
  ∧ (is_Some (files w !! file t) →
     ∀ (t' : Tag) (w' : World), Save t (Close t w).2 ≠ (Ok (None, t'), w')).
Proof.
  split.
  - intros Hcl t' w'. by apply Save_closed.
  - intros Hf t' w'. apply Save_closed. by apply File_Close_closes.
Qed.

(** ** The world a successful Save leaves *)

Lemma tail_drop {A : Type} (l : list A) (k : nat) : tail (drop k l) = drop (S k) l.
Proof.
  revert l. induction k as [|k IH]; intros [|x l]; simpl; try done.
Qed.

Lemma firstFault_None_next (n : nat) (w : World) :
  firstFault (S n) (faults w) = None →
  ∃ w1 : World, next_fault w = (None, w1)
                ∧ firstFault n (faults w1) = None
                ∧ faults w1 = tail (faults w).
Proof.
  rewrite firstFault_next.
  destruct (next_fault w) as [[[e k]|] w1] eqn:Hnf; [done|].
  intros Hff. exists w1. split; [done|]. split; [done|].
  by destruct (next_fault_fields _ _ _ Hnf) as (_ & _ & _ & _ & ? & _).
Qed.

Lemma firstFault_split (n m : nat) (l : list (option fault)) :
  firstFault (n + m) l = None → firstFault n l = None ∧ firstFault m (drop n l) = None.
Proof.
  revert l. induction n as [|n IH]; intros l; simpl.
  - intros H. by rewrite drop_0.
  - destruct l as [|[[e k]|] l]; simpl; try done.
    + intros _. by rewrite firstFault_nil.
    + apply IH.
Qed.

Section StagedSuccess.

Variable w0 : World.
Variable fp0 : nat.
Variable f0 : osFile.
Variable orig : inode.
Hypothesis Hfile : files w0 !! fp0 = Some f0.
Hypothesis Hopen : f_closed f0 = false.
Hypothesis Hino : inodes w0 !! f_ino f0 = Some orig.

Lemma Save_rest_success (t : Tag) (data : list byte) (mode : FileMode) (off k : nat)
    (w : World) :
  0 ≤ originalSize t →
  staged w0 fp0 f0 data mode off w →
  firstFault 5 (faults w) = None →
  faults w = drop k (faults w0) →
  ∃ (w' : World) (off' : nat),
    (io_ File_Seek fp0 (originalSize t);
     io_ io_Copy (fresh (dom (files w0))) fp0;
     io originalFileMode <- File_Stat fp0;
     io_ File_Chmod (fresh (dom (files w0))) originalFileMode;
     io_ (λ w, os_Rename (File_Name w (fresh (dom (files w0)))) (File_Name w fp0) w);
     io_ret (set_file t (fresh (dom (files w0))))) w
    = (Val (set_file t (fresh (dom (files w0)))), w')
    ∧ names w' = <[f_name f0 := fresh (dom (inodes w0))]> (names w0)
    ∧ staged w0 fp0 f0 (data ++ drop (Z.to_nat (originalSize t)) (i_data orig))
        (i_mode orig) off' (set_names w' (<[fresh (dom (names w0)) := fresh (dom (inodes w0))]>
                                            (names w0)))
    ∧ faults w' = drop (5 + k) (faults w0).
Proof.
  intros Hsz Hst Hff Hfd.
  destruct (firstFault_None_next _ _ Hff) as (w1 & Hnf1 & Hff1 & Htl1).
  destruct (staged_Seek w0 fp0 f0 orig Hfile Hino _ _ _ _ _ _ Hst Hnf1 Hsz)
    as (wa & Hrun1 & Hst1 & Hfl1).
  erewrite io_bind_Val by exact Hrun1.
  assert (Hfda : faults wa = drop (1 + k) (faults w0))
    by (by rewrite Hfl1, Htl1, Hfd, tail_drop).
  rewrite <- Hfl1 in Hff1. clear Hrun1 Hnf1 Hfl1 Htl1 Hff Hfd Hst w1 w.
  destruct (firstFault_None_next _ _ Hff1) as (w2 & Hnf2 & Hff2 & Htl2).
  destruct (staged_Copy w0 fp0 f0 orig Hfile Hino _ _ _ _ _ Hst1 Hnf2)
    as (nb & off' & wb & Hrun2 & Hst2 & Hfl2).
  erewrite io_bind_Val by exact Hrun2.
  assert (Hfdb : faults wb = drop (2 + k) (faults w0))
    by (by rewrite Hfl2, Htl2, Hfda, tail_drop).
  rewrite <- Hfl2 in Hff2. clear Hrun2 Hnf2 Hfl2 Htl2 Hff1 Hfda Hst1 w2 wa.
  destruct (firstFault_None_next _ _ Hff2) as (w3 & Hnf3 & Hff3 & Htl3).
  destruct (staged_Stat w0 fp0 f0 orig Hfile Hino _ _ _ _ _ Hst2 Hnf3)
    as (wc & Hrun3 & Hst3 & Hfl3).
  erewrite io_bind_Val by exact Hrun3.
  assert (Hfdc : faults wc = drop (3 + k) (faults w0))
    by (by rewrite Hfl3, Htl3, Hfdb, tail_drop).
  rewrite <- Hfl3 in Hff3. clear Hrun3 Hnf3 Hfl3 Htl3 Hff2 Hfdb Hst2 w3 wb.
  destruct (firstFault_None_next _ _ Hff3) as (w4 & Hnf4 & Hff4 & Htl4).
  destruct (staged_Chmod w0 fp0 f0 _ _ _ _ _ (i_mode orig) Hst3 Hnf4)
    as (wd & Hrun4 & Hst4 & Hfl4).
  erewrite io_bind_Val by exact Hrun4.
  assert (Hfdd : faults wd = drop (4 + k) (faults w0))
    by (by rewrite Hfl4, Htl4, Hfdc, tail_drop).
  rewrite <- Hfl4 in Hff4. clear Hrun4 Hnf4 Hfl4 Htl4 Hff3 Hfdc Hst3 w4 wc.
  destruct (firstFault_None_next _ _ Hff4) as (w5 & Hnf5 & _ & Htl5).
  destruct (staged_Rename w0 fp0 f0 Hfile _ _ _ _ _ Hst4 Hnf5)
    as (we & Hrun5 & Hn5 & Hi5 & Hf5 & Hfl5).
  erewrite io_bind_Val by exact Hrun5.
  exists we, off'. split; [done|]. split; [done|]. split.
  - destruct Hst4 as (Hn4 & Hi4 & Hf4). unfold staged; simpl.
    by rewrite Hi5, Hf5.
  - by rewrite Hfl5, Htl5, Hfdd, tail_drop.
Qed.

(** Under the original name the new file; the Tag's new file object,
    open at the end of that file, goes by the temporary name; the
    original file object is closed. *)
Lemma Save_io_success_world (t : Tag) (frames : list byte) :
  file t = fp0 → 0 ≤ originalSize t →
  firstFault 8 (faults w0) = None →
  ∃ w' : World,
    Save_io t frames w0 = (Val (set_file t (fresh (dom (files w0)))), w')
    ∧ names w' = <[f_name f0 := fresh (dom (inodes w0))]> (names w0)
    ∧ inodes w'
      = <[fresh (dom (inodes w0)) :=
            mkInode (formTagHeader (FormSize (Z.of_nat (length frames))) ++ frames
                       ++ drop (Z.to_nat (originalSize t)) (i_data orig))
                    (i_mode orig)]> (inodes w0)
    ∧ files w' !! fresh (dom (files w0))
      = Some (mkFile (fresh (dom (names w0))) (fresh (dom (inodes w0)))
                (length (formTagHeader (FormSize (Z.of_nat (length frames))) ++ frames
                           ++ drop (Z.to_nat (originalSize t)) (i_data orig)))
                false)
    ∧ closedFile w' fp0
    ∧ faults w' = drop 8 (faults w0).
Proof.
  intros Hfp Hsz Hff. unfold Save_io. rewrite Hfp.
  set (hdr := formTagHeader (FormSize (Z.of_nat (length frames)))).
  destruct (firstFault_None_next _ _ Hff) as (w1 & Hnf1 & Hff1 & Htl1).
  destruct (staged_TempFile w0 fp0 f0 orig Hfile Hopen Hino _ Hnf1)
    as (wa & Hrun1 & Hst1 & Hfl1).
  erewrite io_bind_Val by exact Hrun1.
  assert (Hfda : faults wa = drop 1 (faults w0)).
  { rewrite Hfl1, Htl1. by destruct (faults w0). }
  rewrite <- Hfl1 in Hff1. clear Hrun1 Hnf1 Hfl1 Htl1 Hff w1.
  destruct (firstFault_None_next _ _ Hff1) as (w2 & Hnf2 & Hff2 & Htl2).
  destruct (staged_Write w0 fp0 f0 _ _ _ _ _ hdr Hst1 Hnf2) as (wb & Hrun2 & Hst2 & Hfl2).
  erewrite io_bind_Val by exact Hrun2.
  assert (Hfdb : faults wb = drop 2 (faults w0))
    by (by rewrite Hfl2, Htl2, Hfda, tail_drop).
  rewrite <- Hfl2 in Hff2. clear Hrun2 Hnf2 Hfl2 Htl2 Hff1 Hfda Hst1 w2 wa.
  destruct (firstFault_None_next _ _ Hff2) as (w3 & Hnf3 & Hff3 & Htl3).
  destruct (staged_Write w0 fp0 f0 _ _ _ _ _ frames Hst2 Hnf3)
    as (wc & Hrun3 & Hst3 & Hfl3).
  erewrite io_bind_Val by exact Hrun3.
  assert (Hfdc : faults wc = drop 3 (faults w0))
    by (by rewrite Hfl3, Htl3, Hfdb, tail_drop).
  rewrite <- Hfl3 in Hff3. clear Hrun3 Hnf3 Hfl3 Htl3 Hff2 Hfdb Hst2 w3 wb.
  destruct (Save_rest_success t _ _ _ 3 wc Hsz Hst3 Hff3 Hfdc)
    as (wd & off' & Hrun4 & Hn & Hst & Hfd).
  unfold defer. rewrite Hrun4.
  eexists. split; [reflexivity|].
  destruct Hst as (_ & Hi & Hf). simpl in Hi, Hf.
  assert (Hnew : fresh (dom (files w0)) ≠ fp0) by (by eapply newFile_ne).
  assert (Hop : open_file wd fp0 = Some (mkFile (f_name f0) (f_ino f0) off' false)).
  { unfold open_file. rewrite Hf, lookup_insert_ne by done. by rewrite lookup_insert_eq. }
  unfold File_Close. rewrite Hop. simpl.
  split; [done|]. split; [by rewrite Hi, <- !app_assoc|]. split.
  - rewrite lookup_insert_ne by done. rewrite Hf, lookup_insert_eq.
    by rewrite <- !app_assoc.
  - split; [|done]. eexists. split; [apply lookup_insert_eq | done].
Qed.

End StagedSuccess.

(** ** Saving again, and saving a file whose name is gone *)

(** X9. A second [Save] misses the original name. After a [Save] that
    returned nil the Tag's file object is the temporary file, which goes
    by its temporary name, and [originalSize] is what it was. A second
    [Save] that returns nil therefore leaves the file under the original
    name exactly as the first one wrote it: what it writes goes under the
    temporary name of the first, with the payload cut from the first
    result at the old [originalSize]. *)
Theorem second_Save_misses_original_name (t t1 : Tag) (w : World) (f0 : osFile)
    (orig : inode) (frames : list byte) :
  formAllFrames t = Ok (frames, t1) →
  files w !! file t = Some f0 → f_closed f0 = false →
  inodes w !! f_ino f0 = Some orig → 0 ≤ originalSize t →
  is_Some (names w !! f_name f0) →
  firstFault 16 (faults w) = None →
  ∃ (t2 : Tag) (w2 : World) (ino1 : nat) (x1 : inode),
    Save t w = (Ok (None, t2), w2)
    ∧ names w2 !! f_name f0 = Some ino1 ∧ inodes w2 !! ino1 = Some x1
    ∧ File_Name w2 (file t2) ≠ f_name f0
    ∧ originalSize t2 = originalSize t
    ∧ ∀ (frames2 : list byte) (t3 : Tag),
        formAllFrames t2 = Ok (frames2, t3) →
        ∃ (t4 : Tag) (w4 : World) (ino2 : nat),
          Save t2 w2 = (Ok (None, t4), w4)
          ∧ names w4 !! f_name f0 = Some ino1 ∧ inodes w4 !! ino1 = Some x1
          ∧ names w4 !! File_Name w2 (file t2) = Some ino2
          ∧ inodes w4 !! ino2
            = Some (mkInode (formTagHeader (FormSize (Z.of_nat (length frames2)))
                               ++ frames2
                               ++ drop (Z.to_nat (originalSize t)) (i_data x1))
                            (i_mode x1)).
Proof.
  intros Hform Hfile Hopen Hino Hsz Hname Hff.
  destruct (formAllFrames_fields _ _ _ Hform) as (Hf1 & Ho1).
  destruct (firstFault_split 8 8 _ Hff) as (Hff1 & Hff2).
  destruct (Save_io_success_world w (file t) f0 orig Hfile Hopen Hino t1 frames Hf1)
    as (w2 & Hrun & Hn & Hi & Hfl & Hcl & Hfd); [lia | done |].
  set (tmpname := fresh (dom (names w))) in *.
  set (tmpino := fresh (dom (inodes w))) in *.
  set (newFile := fresh (dom (files w))) in *.
  set (data1 := formTagHeader _ ++ frames ++ _) in *.
  assert (Hne : tmpname ≠ f_name f0).
  { intros Heq. destruct Hname as [i Hi0]. rewrite <- Heq in Hi0.
    unfold tmpname in Hi0. by rewrite tmpname_fresh in Hi0. }
  assert (Hfn : File_Name w2 (file (set_file t1 newFile)) = tmpname).
  { unfold File_Name. simpl. by rewrite Hfl. }
  exists (set_file t1 newFile), w2, tmpino, (mkInode data1 (i_mode orig)).
  split; [unfold Save; by rewrite Hform, Hrun|].
  split; [by rewrite Hn, lookup_insert_eq|].
  split; [by rewrite Hi, lookup_insert_eq|].
  split; [by rewrite Hfn|]. split; [done|].
  intros frames2 t3 Hform2. rewrite Hfn.
  destruct (Save_outcome (set_file t1 newFile) t3 frames2 w2
              (mkFile tmpname tmpino (length data1) false) (mkInode data1 (i_mode orig)))
    as (w4 & Hrun2 & Hfin); [done | done | done | | simpl; lia |].
  { simpl. by rewrite Hi, lookup_insert_eq. }
  rewrite Hfd, Hff2 in Hrun2. rewrite Hfd in Hfin.
  destruct (Hfin Hff2) as (Hn4 & Hi4). simpl in Hn4, Hi4.
  eexists _, w4, (fresh (dom (inodes w2))). split; [exact Hrun2|].
  assert (Hino2 : fresh (dom (inodes w2)) ≠ tmpino).
  { intros Heq. pose proof (is_fresh (dom (inodes w2))) as Hfr. rewrite Heq in Hfr.
    apply Hfr, elem_of_dom. rewrite Hi, lookup_insert_eq. by eexists. }
  rewrite Hn4, Hi4. rewrite lookup_insert_ne by done.
  rewrite (lookup_insert_ne _ (fresh (dom (inodes w2))) tmpino) by done.
  rewrite !lookup_insert_eq, Hn, Hi, !lookup_insert_eq.
  repeat split; try done. by rewrite Ho1.
Qed.

(** X10. [Save] does not notice that the original file was removed.
    When the original name denotes nothing any more while the Tag still
    has the file open, the frames form and no call is due to fail, [Save]
    returns nil, not an error, and creates the name anew: it then
    denotes a new file made of the header, the frames and the bytes of
    the open file from [originalSize] on. *)
Theorem Save_recreates_removed_name (t t1 : Tag) (w : World) (f0 : osFile)
    (orig : inode) (frames : list byte) :
  formAllFrames t = Ok (frames, t1) →
  files w !! file t = Some f0 → f_closed f0 = false →
  inodes w !! f_ino f0 = Some orig → 0 ≤ originalSize t →
  names w !! f_name f0 = None →
  firstFault 8 (faults w) = None →
  ∃ (t2 : Tag) (w2 : World) (ino : nat),
    Save t w = (Ok (None, t2), w2)
    ∧ names w2 !! f_name f0 = Some ino
    ∧ inodes w !! ino = None
    ∧ inodes w2 !! ino
      = Some (mkInode (formTagHeader (FormSize (Z.of_nat (length frames))) ++ frames
                         ++ drop (Z.to_nat (originalSize t)) (i_data orig))
                      (i_mode orig)).
Proof.
  intros Hform Hfile Hopen Hino Hsz _ Hff.
  destruct (Save_outcome t t1 frames w f0 orig Hform Hfile Hopen Hino Hsz)
    as (w2 & Hrun & Hfin).
  rewrite Hff in Hrun. destruct (Hfin Hff) as (Hn & Hi).
  eexists _, w2, (fresh (dom (inodes w))). split; [exact Hrun|].
  rewrite Hn, Hi, !lookup_insert_eq. split; [done|]. split; [|done].
  apply tmpino_fresh.
Qed.

(** ** What a failed Save leaves behind *)

Lemma extendsWorld_refl (w : World) : extendsWorld w w.
Proof. by repeat split. Qed.

Lemma extendsWorld_trans (w1 w2 w3 : World) :
  extendsWorld w1 w2 → extendsWorld w2 w3 → extendsWorld w1 w3.
Proof.
  intros (Hn12 & Hf12 & Hi12) (Hn23 & Hf23 & Hi23). split; [congruence|].
  split; [intros fp H; by apply Hf23, Hf12 | intros i H; by apply Hi23, Hi12].
Qed.

Lemma extendsWorld_fields (w w' : World) :
  names w' = names w → files w' = files w → inodes w' = inodes w → extendsWorld w w'.
Proof. intros Hn Hf Hi. unfold extendsWorld. by rewrite Hn, Hf, Hi. Qed.

Lemma extendsWorld_next_fault (w w1 : World) (o : option fault) :
  next_fault w = (o, w1) → extendsWorld w w1.
Proof.
  intros Hnf. destruct (next_fault_fields _ _ _ Hnf) as (Hn & Hi & Hf & _).
  by apply extendsWorld_fields.
Qed.

Lemma extendsWorld_files (w : World) (fp : nat) (g : osFile) :
  extendsWorld w (set_files w (<[fp := g]> (files w))).
Proof.
  split; [done|]. split; [|done]. intros fp' H. simpl.
  destruct (decide (fp = fp')) as [->|Hne].
  - rewrite lookup_insert_eq. by eexists.
  - by rewrite lookup_insert_ne.
Qed.

Lemma extendsWorld_inodes (w : World) (i : nat) (x : inode) :
  extendsWorld w (set_inodes w (<[i := x]> (inodes w))).
Proof.
  split; [done|]. split; [done|]. intros i' H. simpl.
  destruct (decide (i = i')) as [->|Hne].
  - rewrite lookup_insert_eq. by eexists.
  - by rewrite lookup_insert_ne.
Qed.

Lemma extendsWorld_log (w : World) (ev : event) : extendsWorld w (log w ev).
Proof. by apply extendsWorld_fields. Qed.

Lemma extendsWorld_do_write (fp : nat) (b : list byte) (w w' : World) :
  do_write fp b w = Some w' → extendsWorld w w'.
Proof.
  unfold do_write. destruct (open_file w fp) as [f|]; [|done].
  destruct (inodes w !! f_ino f) as [i|]; [|done]. intros [= <-].
  eapply extendsWorld_trans; [apply extendsWorld_inodes|].
  eapply extendsWorld_trans; [apply extendsWorld_files|].
  apply extendsWorld_log.
Qed.

Lemma extendsWorld_do_read (fp len : nat) (w : World) : extendsWorld w (do_read fp len w).
Proof.
  unfold do_read. destruct (open_file w fp) as [f|]; [|apply extendsWorld_refl].
  eapply extendsWorld_trans; [apply extendsWorld_files | apply extendsWorld_log].
Qed.

Lemma extendsWorld_Write (fp : nat) (b : list byte) (w w' : World) (r : errorOr nat) :
  File_Write fp b w = (r, w') → extendsWorld w w'.
Proof.
  unfold File_Write. destruct (next_fault w) as [[[e n]|] w1] eqn:Hnf;
    pose proof (extendsWorld_next_fault _ _ _ Hnf) as H1.
  - destruct (do_write fp (take n b) w1) as [w2|] eqn:Hw; intros [= <- <-]; simpl; [|done].
    eapply extendsWorld_trans; [exact H1 | by eapply extendsWorld_do_write].
  - destruct (do_write fp b w1) as [w2|] eqn:Hw; intros [= <- <-]; [|done].
    eapply extendsWorld_trans; [exact H1 | by eapply extendsWorld_do_write].
Qed.

Lemma extendsWorld_Seek (fp : nat) (pos : Z) (w w' : World) (r : errorOr Z) :
  File_Seek fp pos w = (r, w') → extendsWorld w w'.
Proof.
  unfold File_Seek. destruct (next_fault w) as [[[e n]|] w1] eqn:Hnf;
    pose proof (extendsWorld_next_fault _ _ _ Hnf) as H1.
  - by intros [= <- <-].
  - destruct (open_file w1 fp) as [f|]; [|by intros [= <- <-]].
    case_decide; intros [= <- <-]; [done|].
    eapply extendsWorld_trans; [exact H1|].
    eapply extendsWorld_trans; [apply extendsWorld_files | apply extendsWorld_log].
Qed.

Lemma extendsWorld_Copy (dst src : nat) (w w' : World) (r : errorOr nat) :
  io_Copy dst src w = (r, w') → extendsWorld w w'.
Proof.
  unfold io_Copy. destruct (next_fault w) as [[[e n]|] w1] eqn:Hnf;
    pose proof (extendsWorld_next_fault _ _ _ Hnf) as H1.
  - destruct (remaining w1 src) as [[f rest]|]; [|by intros [= <- <-]].
    pose proof (extendsWorld_do_read src (length (take n rest)) w1) as H2.
    destruct (do_write dst (take n rest) _) as [w2|] eqn:Hw; intros [= <- <-]; simpl.
    + eapply extendsWorld_trans; [exact H1|].
      eapply extendsWorld_trans; [exact H2 | by eapply extendsWorld_do_write].
    + by eapply extendsWorld_trans.
  - destruct (remaining w1 src) as [[f rest]|]; [|by intros [= <- <-]].
    pose proof (extendsWorld_do_read src (length rest) w1) as H2.
    destruct (do_write dst rest _) as [w2|] eqn:Hw; intros [= <- <-].
    + eapply extendsWorld_trans; [exact H1|].
      eapply extendsWorld_trans; [exact H2 | by eapply extendsWorld_do_write].
    + by eapply extendsWorld_trans.
Qed.

Lemma extendsWorld_Stat (fp : nat) (w w' : World) (r : errorOr FileMode) :
  File_Stat fp w = (r, w') → extendsWorld w w'.
Proof.
  unfold File_Stat. destruct (next_fault w) as [[[e n]|] w1] eqn:Hnf;
    pose proof (extendsWorld_next_fault _ _ _ Hnf) as H1.
  - by intros [= <- <-].
  - destruct (open_file w1 fp) as [f|]; [|by intros [= <- <-]].
    destruct (inodes w1 !! f_ino f); intros [= <- <-]; [|done].
    eapply extendsWorld_trans; [exact H1 | apply extendsWorld_log].
Qed.

Lemma extendsWorld_Chmod (fp : nat) (mode : FileMode) (w w' : World) (r : errorOr unit) :
  File_Chmod fp mode w = (r, w') → extendsWorld w w'.
Proof.
  unfold File_Chmod. destruct (next_fault w) as [[[e n]|] w1] eqn:Hnf;
    pose proof (extendsWorld_next_fault _ _ _ Hnf) as H1.
  - by intros [= <- <-].
  - destruct (open_file w1 fp) as [f|]; [|by intros [= <- <-]].
    destruct (inodes w1 !! f_ino f); intros [= <- <-]; [|done].
    eapply extendsWorld_trans; [exact H1|].
    eapply extendsWorld_trans; [apply extendsWorld_inodes | apply extendsWorld_log].
Qed.

Lemma extendsWorld_Rename_Err (oldname newname : string) (w w' : World) (e : error) :
  os_Rename oldname newname w = (Err e, w') → extendsWorld w w'.
Proof.
  unfold os_Rename. destruct (next_fault w) as [[[e' n]|] w1] eqn:Hnf;
    pose proof (extendsWorld_next_fault _ _ _ Hnf) as H1.
  - by intros [= <- <-].
  - destruct (names w1 !! oldname); [done|]. by intros [= <- <-].
Qed.

Lemma extendsWorld_Close (fp : nat) (w : World) : extendsWorld w (File_Close fp w).2.
Proof.
  unfold File_Close. destruct (open_file w fp) as [f|]; simpl; [|apply extendsWorld_refl].
  eapply extendsWorld_trans; [apply extendsWorld_files | apply extendsWorld_log].
Qed.

Lemma hoare_extendsWorld {A : Type} (w1 : World) (m : IO A) :
  (∀ (w w' : World) (r : errorOr A), m w = (r, w') → extendsWorld w w') →
  hoare (extendsWorld w1) m (λ _, extendsWorld w1) (extendsWorld w1).
Proof.
  intros Hm w w' r H1 Hrun.
  assert (H13 : extendsWorld w1 w') by (eapply extendsWorld_trans; [exact H1 | by eapply Hm]).
  by destruct r.
Qed.

(** The calls of [Save] from the seek on: a failing run keeps the
    directory, the file objects and the files. *)
Lemma Save_rest_extends (t : Tag) (newFile : nat) (w1 : World) :
  hoare (extendsWorld w1)
    (io_ File_Seek (file t) (originalSize t);
     io_ io_Copy newFile (file t);
     io originalFileMode <- File_Stat (file t);
     io_ File_Chmod newFile originalFileMode;
     io_ (λ w, os_Rename (File_Name w newFile) (File_Name w (file t)) w);
     io_ret (set_file t newFile))
    (λ _ _, True) (extendsWorld w1).
Proof.
  eapply hoare_bind; [apply hoare_extendsWorld; intros w w' r; apply extendsWorld_Seek|].
  intros ?. eapply hoare_bind;
    [apply hoare_extendsWorld; intros w w' r; apply extendsWorld_Copy|].
  intros ?. eapply hoare_bind;
    [apply hoare_extendsWorld; intros w w' r; apply extendsWorld_Stat|].
  intros mode. eapply hoare_bind;
    [apply hoare_extendsWorld; intros w w' r; apply extendsWorld_Chmod|].
  intros ?. eapply (hoare_bind _ (λ _ _, True)).
  - intros w w' r H1 Hrun. destruct r as [v|e]; [done|].
    eapply extendsWorld_trans; [exact H1 | by eapply extendsWorld_Rename_Err].
  - intros ?. intros w w' r _ [= <- <-]. done.
Qed.

(** The calls of [Save] after the creation of the temporary file. *)
Lemma Save_after_TempFile_extends (t : Tag) (frames : list byte) (newFile : nat)
    (w1 : World) :
  hoare (extendsWorld w1)
    (io_ File_Write newFile (formTagHeader (FormSize (Z.of_nat (length frames))));
     io_ File_Write newFile frames;
     defer (File_Close (file t)) (
       io_ File_Seek (file t) (originalSize t);
       io_ io_Copy newFile (file t);
       io originalFileMode <- File_Stat (file t);
       io_ File_Chmod newFile originalFileMode;
       io_ (λ w, os_Rename (File_Name w newFile) (File_Name w (file t)) w);
       io_ret (set_file t newFile)))
    (λ _ _, True) (extendsWorld w1).
Proof.
  eapply hoare_bind; [apply hoare_extendsWorld; intros w w' r; apply extendsWorld_Write|].
  intros ?. eapply hoare_bind;
    [apply hoare_extendsWorld; intros w w' r; apply extendsWorld_Write|].
  intros ?.
  eapply (hoare_defer _ (λ _ _, True) _ (extendsWorld w1));
    [apply Save_rest_extends | done |].
  intros w H1. eapply extendsWorld_trans; [exact H1 | apply extendsWorld_Close].
Qed.

(** X11. A failed [Save] leaves its temporary file behind. When [Save]
    returns an error and the creation of the temporary file was not the
    call that failed, the directory afterwards is the directory before
    plus the temporary name, which denotes a file: [Save] does not remove
    it. When the creation itself failed, the directory is as before. *)
Theorem failed_Save_leaves_temporary_file (t t' : Tag) (w w' : World) (e : error) :
  Save t w = (Ok (Some e, t'), w') →
  (firstFault 1 (faults w) = None →
     names w' = <[fresh (dom (names w)) := fresh (dom (inodes w))]> (names w)
     ∧ names w !! fresh (dom (names w)) = None
     ∧ is_Some (inodes w' !! fresh (dom (inodes w))))
  ∧ (firstFault 1 (faults w) ≠ None → names w' = names w).
Proof.
  unfold Save. destruct (formAllFrames t) as [[frames t1]|msg]; [|done].
  destruct (Save_io t1 frames w) as [[t2|e'] w2] eqn:Hrun; [done|].
  intros [= -> <- <-]. revert Hrun. unfold Save_io, io_bind at 1.
  rewrite (firstFault_next 0 w). unfold TempFile at 1.
  destruct (next_fault w) as [[[e1 n]|] w1] eqn:Hnf;
    destruct (next_fault_fields _ _ _ Hnf) as (Hn & Hi & Hf & _).
  - intros [= <- <-]. split; [done|]. intros _. done.
  - rewrite Hn, Hi, Hf. simpl. intros Hrun. split; [|done]. intros _.
    match type of Hrun with
    | _ ?wt = _ => assert (Hext : extendsWorld wt w2)
    end.
    { exact (Save_after_TempFile_extends t1 frames _ _ _ _ (Err e)
               (extendsWorld_refl _) Hrun). }
    destruct Hext as (Hn2 & _ & Hi2). simpl in Hn2, Hi2.
    rewrite Hn2. split; [done|]. split; [apply not_elem_of_dom, is_fresh|].
    apply Hi2. rewrite lookup_insert_eq. by eexists.
Qed.

(** X12. A [Save] that fails at the seek or later closes the Tag's file
    for good. On a Tag whose frames form and whose file object is open,
    if the creation of the temporary file and the two writes are not due
    to fail and [Save] returns an error, the Tag keeps its file object,
    that object is closed, and no later [Save] on the Tag returns nil,
    whatever the calls do. *)
Theorem late_failure_closes_the_file (t t' : Tag) (w w' : World) (f0 : osFile)
    (orig : inode) (e : error) :
  files w !! file t = Some f0 → f_closed f0 = false →
  inodes w !! f_ino f0 = Some orig →
  firstFault 3 (faults w) = None →
  Save t w = (Ok (Some e, t'), w') →
  file t' = file t
  ∧ closedFile w' (file t')
  ∧ ∀ (fl : list (option fault)) (t'' : Tag) (w'' : World),
      Save t' (set_faults w' fl) ≠ (Ok (None, t''), w'').
Proof.
  intros Hfile Hopen Hino Hff. unfold Save.
  destruct (formAllFrames t) as [[frames t1]|msg] eqn:Hform; [|done].
  destruct (formAllFrames_fields _ _ _ Hform) as (Hf1 & _).
  destruct (Save_io t1 frames w) as [[t2|e'] w2] eqn:Hrun; [done|].
  intros [= -> <- <-].
  assert (Hcl : closedFile w2 (file t1)).
  { revert Hrun. unfold Save_io. rewrite Hf1.
    destruct (firstFault_None_next _ _ Hff) as (w1 & Hnf1 & Hff1 & _).
    destruct (staged_TempFile w (file t) f0 orig Hfile Hopen Hino _ Hnf1)
      as (wa & Hrun1 & Hst1 & Hfl1).
    erewrite io_bind_Val by exact Hrun1. rewrite <- Hfl1 in Hff1.
    destruct (firstFault_None_next _ _ Hff1) as (w3 & Hnf2 & Hff2 & _).
    destruct (staged_Write w (file t) f0 _ _ _ _ _
                (formTagHeader (FormSize (Z.of_nat (length frames)))) Hst1 Hnf2)
      as (wb & Hrun2 & Hst2 & Hfl2).
    erewrite io_bind_Val by exact Hrun2. rewrite <- Hfl2 in Hff2.
    destruct (firstFault_None_next _ _ Hff2) as (w4 & Hnf3 & _ & _).
    destruct (staged_Write w (file t) f0 _ _ _ _ _ frames Hst2 Hnf3)
      as (wc & Hrun3 & Hst3 & Hfl3).
    erewrite io_bind_Val by exact Hrun3.
    unfold defer.
    match goal with
    | |- match ?body wc with _ => _ end = _ → _ =>
        destruct (body wc) as [r wd] eqn:Hbody
    end.
    intros [= -> <-].
    pose proof (Save_rest_extends t1 (fresh (dom (files w))) wc) as Hh.
    rewrite Hf1 in Hh.
    specialize (Hh wc wd (Err e) (extendsWorld_refl _) Hbody). simpl in Hh.
    apply File_Close_closes. destruct Hh as (_ & Hfs & _). apply Hfs.
    destruct (staged_open_orig w (file t) f0 orig Hfile Hino _ _ _ _ Hst3) as (Hop & _).
    apply open_file_Some in Hop as (Hop & _). by eexists. }
  split; [done|]. split; [done|].
  intros fl t'' w''. apply Save_closed. by eapply closedFile_fields.
Qed.

(** ** What Save does to the Tag *)

Lemma hoare_any {A : Type} (P : World → Prop) (m : IO A) :
  hoare P m (λ _ _, True) (λ _, True).
Proof. intros w w' r _ _. by destruct r. Qed.

Lemma Save_io_returns (t t2 : Tag) (frames : list byte) (w w' : World) :
  Save_io t frames w = (Val t2, w') → ∃ fp : nat, t2 = set_file t fp.
Proof.
  intros Hrun.
  assert (Hh : hoare (λ _, True) (Save_io t frames)
                 (λ t2 _, ∃ fp : nat, t2 = set_file t fp) (λ _, True)).
  { unfold Save_io.
    eapply hoare_bind; [apply hoare_any|]. intros newFile.
    eapply hoare_bind; [apply hoare_any|]. intros ?.
    eapply hoare_bind; [apply hoare_any|]. intros ?.
    eapply (hoare_defer _ (λ t2 _, ∃ fp : nat, t2 = set_file t fp) _ (λ _, True));
      [|done|done].
    do 5 (eapply hoare_bind; [apply hoare_any|]; intros ?).
    intros w1 w2 r _ [= <- <-]. by eexists. }
  exact (Hh w w' (Val t2) I Hrun).
Qed.

Lemma formAllFrames_no_pending (t t1 : Tag) (frames : list byte) :
  framesCoords t = ∅ → formAllFrames t = Ok (frames, t1) → t1 = t.
Proof.
  intros Hc. unfold formAllFrames, writeFrames. unfold bind at 1.
  rewrite (AllFrames_no_pending t Hc).
  destruct (writeFrameGroups _ _); [|done]. by intros [= _ <-].
Qed.

(** X13. [Save] changes nothing of the Tag but its file. On a Tag with
    no pending coordinates, whenever [Save] returns, with nil or with an
    error, the Tag afterwards has the maps and the [originalSize] it
    had, so [GetFrames] returns for every identifier what it returned
    before; when [Save] returns an error the Tag is the one before. *)
Theorem Save_changes_only_the_file (t t' : Tag) (w w' : World) (r : option error) :
  framesCoords t = ∅ →
  Save t w = (Ok (r, t'), w') →
  framesCoords t' = framesCoords t ∧ frames t' = frames t
  ∧ sequences t' = sequences t ∧ ids t' = ids t
  ∧ originalSize t' = originalSize t
  ∧ (r ≠ None → t' = t)
  ∧ ∀ id : string, ∃ fs : list Framer,
      GetFrames id t = Ok (fs, t) ∧ GetFrames id t' = Ok (fs, t').
Proof.
  intros Hc. unfold Save.
  destruct (formAllFrames t) as [[frames t1]|msg] eqn:Hform; [|done].
  apply (formAllFrames_no_pending _ _ _ Hc) in Hform as ->.
  destruct (Save_io t frames w) as [[t2|e] w2] eqn:Hrun; intros [= <- <- <-].
  - destruct (Save_io_returns _ _ _ _ _ Hrun) as (fp & ->). simpl.
    repeat (split; [done|]). intros id. eexists.
    rewrite !GetFrames_no_pending by (simpl; rewrite Hc; apply lookup_empty).
    simpl. done.
  - repeat (split; [done|]). intros id. eexists.
    rewrite GetFrames_no_pending by (rewrite Hc; apply lookup_empty). done.
Qed.

(** ** The frames a Save writes *)










End Collaborators.

Arguments routed {TextEncoding} t id.
Arguments nonEmptySequences {TextEncoding} t.
Arguments framesCoords {TextEncoding} t.
Arguments bind {TextEncoding A B} m k t.
Arguments forM_ {TextEncoding A} l body t.
Arguments AddFrame {TextEncoding} id f t.
Arguments keeps {TextEncoding A} m t.

(** * The worked instance, with encodings by their key byte

    The text encoding is its key byte, 3 for UTF-8 and 0 for the zero
    value. *)

Example demo_tag_G_reached :
  AddFrame "APIC" (demo_picture N "G") (demo_tag N) = Ok (tt, demo_tag_G N).
Proof. reflexivity. Qed.

Example demo_tag_Foo_reached :
  SetTitle N 3%N "Foo" (demo_tag N) = Ok (tt, demo_tag_Foo N 3%N).
Proof. reflexivity. Qed.

Example demo_formAllFrames :
  formAllFrames N (demo_Body N) demo_FormSize (demo_readFrame N) (demo_tag_Foo N 3%N)
  = Ok (demo_frames, demo_tag_Foo N 3%N).
Proof. vm_compute. reflexivity. Qed.

Example demo_Save_succeeds :
  (Save N (demo_Body N) demo_FormSize demo_formTagHeader (demo_readFrame N)
     (demo_tag_Foo N 3%N) demo_world).1
  = Ok (None, set_file N (demo_tag_Foo N 3%N) 1).
Proof. vm_compute. reflexivity. Qed.

Example demo_Save_fails :
  (Save N (demo_Body N) demo_FormSize demo_formTagHeader (demo_readFrame N)
     (demo_tag_Foo N 3%N) demo_world_failing).1
  = Ok (Some "no space left on device", demo_tag_Foo N 3%N).
Proof. vm_compute. reflexivity. Qed.

Lemma demo_not_routed : ¬ routed (demo_tag N) "TIT2".
Proof. intros [H|[H|H]]; vm_compute in H; discriminate H. Qed.

Lemma demo_tag_G_nonEmpty : nonEmptySequences (demo_tag_G N).
Proof.
  intros id s Hs. unfold demo_tag_G in Hs. cbn [sequences] in Hs.
  apply lookup_singleton_Some in Hs as [_ <-]. discriminate.
Qed.

Lemma AddFrame_twice_overwrites_witness :
  ∃ t' : Tag N,
    bind (AddFrame "TIT2" (demo_text N 3%N "Foo"))
      (λ _, bind (AddFrame "TIT2" (demo_text N 3%N "Bar"))
              (λ _, GetFrames N (demo_readFrame N) "TIT2"))
      (demo_tag N)
    = Ok ([demo_text N 3%N "Bar"], t').
Proof.
  apply (AddFrame_twice_overwrites N (demo_readFrame N) (demo_tag N) "TIT2").
  - exact demo_not_routed.
  - reflexivity.
Defined.

Lemma AddFrame_routed_appends_witness :
  ∃ t' : Tag N,
    bind (forM_ [demo_picture N "A"; demo_picture N "B"] (AddFrame "APIC"))
      (λ _, GetFrames N (demo_readFrame N) "APIC") (demo_tag_G N)
    = Ok ([demo_picture N "G"; demo_picture N "A"; demo_picture N "B"], t').
Proof.
  apply (proj1 (AddFrame_routed_appends N (demo_readFrame N) (demo_tag_G N) "APIC"
                  [demo_picture N "A"; demo_picture N "B"]
                  (or_introl eq_refl) eq_refl eq_refl)).
Defined.

(** C3 as stated fails: on a Tag with no pending coordinates that already
    holds the picture G, reached by one [AddFrame], adding the picture A
    makes [GetFrames] return [G; A], not exactly [A]. *)
Lemma AddFrame_routed_exact_counterexample :
  ¬ (∀ (t : Tag N) (id : string) (fs : list (Framer N)),
       routed t id → framesCoords t !! id = None →
       ∃ t' : Tag N,
         bind (forM_ fs (AddFrame id)) (λ _, GetFrames N (demo_readFrame N) id) t
         = Ok (fs, t')).
Proof.
  intros Hclaim.
  destruct (Hclaim (demo_tag_G N) "APIC" [demo_picture N "A"]) as (t' & Hrun).
  - left. reflexivity.
  - reflexivity.
  - vm_compute in Hrun. injection Hrun as Hfs _. discriminate Hfs.
Qed.

Lemma formFrame_layout_witness :
  formFrame N (demo_Body N) demo_FormSize "TIT2" (demo_text N 3%N "Foo") = Ok demo_frames.
Proof.
  apply (formFrame_layout N (demo_Body N) demo_FormSize "TIT2"
           (TextFrameV N (mkTextFrame N 3%N "Foo"))).
  discriminate.
Defined.

Lemma formFrame_blank_id_panics_witness :
  ∃ msg : string,
    Save N (demo_Body N) demo_FormSize demo_formTagHeader (demo_readFrame N)
      (demo_tag_blank N 3%N) demo_world
    = (Panic msg, demo_world).
Proof.
  apply (proj2 (proj2 (formFrame_blank_id_panics N (demo_Body N) demo_FormSize
                         demo_formTagHeader (demo_readFrame N) (demo_text N 3%N "Foo")))).
  - reflexivity.
  - reflexivity.
Defined.

Lemma GetLastFrame_last_witness :
  ∃ t' : Tag N,
    bind (forM_ [demo_picture N "A"; demo_picture N "B"; demo_picture N "C"]
            (AddFrame "APIC"))
      (λ _, GetLastFrame N (demo_readFrame N) "APIC") (demo_tag N)
    = Ok (demo_picture N "C", t').
Proof.
  apply (proj2 (GetLastFrame_last N (demo_readFrame N) (demo_tag N) "APIC")
           (demo_picture N "A") (demo_picture N "B") (demo_picture N "C")).
  - reflexivity.
  - reflexivity.
Defined.

Lemma sequences_stay_nonempty_witness :
  keeps (AddFrame "APIC" (demo_picture N "A")) (demo_tag_G N)
  ∧ keeps (AddFrame "TIT2" (demo_text N 3%N "Foo")) (demo_tag_G N)
  ∧ keeps (GetFrames N (demo_readFrame N) "APIC") (demo_tag_G N)
  ∧ keeps (AllFrames N (demo_readFrame N)) (demo_tag_G N).
Proof.
  destruct (sequences_stay_nonempty N 3%N (demo_readFrame N) (demo_tag_G N)
              demo_tag_G_nonEmpty)
    as (_ & _ & Hadd & _ & Hget & Hall).
  repeat split.
  - apply Hadd.
  - apply Hadd.
  - apply Hget.
  - apply Hall.
Defined.

Lemma GetTextFrame_unchecked_assertion_witness :
  Title N 0%N (demo_readFrame N) (demo_tag N) = Ok ("", demo_tag N)
  ∧ ∃ msg : string, Title N 0%N (demo_readFrame N) (demo_tag_mistyped N) = Panic msg.
Proof.
  split.
  - destruct (GetTextFrame_unchecked_assertion N 0%N (demo_readFrame N) (demo_tag N) "TIT2")
      as (_ & (Hnil & _ & _) & _).
    apply Hnil. reflexivity.
  - destruct (GetTextFrame_unchecked_assertion N 0%N (demo_readFrame N)
                (demo_tag_mistyped N) "TIT2")
      as (_ & (_ & _ & Hother) & _).
    apply (Hother "id3v2.PictureFrame" (list_byte_of_string "G") (demo_tag_mistyped N)).
    reflexivity.
Defined.

Lemma Save_preserves_payload_witness :
  (∃ (t' : Tag N) (w' : World),
     Save N (demo_Body N) demo_FormSize demo_formTagHeader (demo_readFrame N)
       (demo_tag_Foo N 3%N) demo_world
     = (Ok (None, t'), w'))
  ∧ (∀ (t' : Tag N) (w' : World),
       Save N (demo_Body N) demo_FormSize demo_formTagHeader (demo_readFrame N)
         (demo_tag_Foo N 3%N) demo_world
       = (Ok (None, t'), w') →
       ∃ (ino : nat) (x : inode),
         names w' !! "song.mp3" = Some ino ∧ inodes w' !! ino = Some x
         ∧ drop (length (i_data x) - 5) (i_data x) = demo_payload).
Proof.
  assert (Hfile : files demo_world !! file N (demo_tag_Foo N 3%N) = Some demo_file)
    by reflexivity.
  assert (Hopen : f_closed demo_file = false) by reflexivity.
  assert (Hino : inodes demo_world !! f_ino demo_file
                 = Some (mkInode (demo_tagRegion ++ demo_payload) 420%N)) by reflexivity.
  assert (Hsize : originalSize N (demo_tag_Foo N 3%N) = Z.of_nat (length demo_tagRegion))
    by reflexivity.
  destruct (Save_preserves_payload N (demo_Body N) demo_FormSize demo_formTagHeader
              (demo_readFrame N) (demo_tag_Foo N 3%N) demo_world demo_file
              demo_tagRegion demo_payload 420%N Hfile Hopen Hino Hsize) as (Hkept & Hruns).
  split.
  - apply (Hruns demo_frames (demo_tag_Foo N 3%N) demo_formAllFrames). reflexivity.
  - intros t' w' Hrun.
    destruct (Hkept t' w' Hrun) as (fr & t1 & ino & x & _ & Hn & Hi & _ & Hlast & _).
    exists ino, x. split; [exact Hn|]. split; [exact Hi|]. exact Hlast.
Defined.

Lemma lookup_miss_witness :
  GetFrames N (demo_readFrame N) "TALB" (demo_tag_Foo N 3%N) = Ok ([], demo_tag_Foo N 3%N)
  ∧ GetLastFrame N (demo_readFrame N) "TALB" (demo_tag_Foo N 3%N)
    = Ok (None, demo_tag_Foo N 3%N)
  ∧ GetTextFrame N 0%N (demo_readFrame N) "TALB" (demo_tag_Foo N 3%N)
    = Ok (zeroTextFrame N 0%N, demo_tag_Foo N 3%N).
Proof.
  apply (lookup_miss N 0%N (demo_readFrame N) (demo_tag_Foo N 3%N) "TALB").
  - reflexivity.
  - reflexivity.
  - reflexivity.
Defined.

Lemma GetLastFrame_after_AddFrame_witness :
  ∃ t1 : Tag N,
    AddFrame "APIC" (demo_picture N "A") (demo_tag_G N) = Ok (tt, t1)
    ∧ ids N t1 = ids N (demo_tag_G N)
    ∧ GetLastFrame N (demo_readFrame N) "APIC" t1 = Ok (demo_picture N "A", t1).
Proof.
  apply (GetLastFrame_after_AddFrame N (demo_readFrame N) (demo_tag_G N) "APIC"
           (demo_picture N "A")).
  - reflexivity.
  - intros _. reflexivity.
Defined.

Lemma setter_getter_round_trip_witness :
  ∃ t' : Tag N,
    bind (SetTitle N 3%N "Foo") (λ _, Title N 0%N (demo_readFrame N)) (demo_tag N)
    = Ok ("Foo", t').
Proof.
  apply (proj1 (setter_getter_round_trip N 3%N 0%N (demo_readFrame N) (demo_tag N) "Foo")).
  split.
  - reflexivity.
  - intros _. reflexivity.
Defined.

Lemma AddFrame_other_identifier_witness :
  ∃ (t1 : Tag N) (fs : list (Framer N)),
    AddFrame "APIC" (demo_picture N "A") (demo_tag_Foo N 3%N) = Ok (tt, t1)
    ∧ GetFrames N (demo_readFrame N) "TIT2" (demo_tag_Foo N 3%N)
      = Ok (fs, demo_tag_Foo N 3%N)
    ∧ GetFrames N (demo_readFrame N) "TIT2" t1 = Ok (fs, t1).
Proof.
  apply (AddFrame_other_identifier N (demo_readFrame N) (demo_tag_Foo N 3%N) "APIC" "TIT2"
           (demo_picture N "A")).
  - discriminate.
  - reflexivity.
Defined.

Lemma AllFrames_and_GetFrames_witness :
  ∃ all : gmap string (list (Framer N)),
    AllFrames N (demo_readFrame N) (demo_tag_both N) = Ok (all, demo_tag_both N)
    ∧ GetFrames N (demo_readFrame N) "APIC" (demo_tag_both N)
      = Ok ([demo_picture N "S"], demo_tag_both N)
    ∧ all !! "APIC" ≠ None
    ∧ default [] (all !! "APIC") = [demo_picture N "S"; demo_picture N "G"].
Proof.
  assert (Hnone : framesCoords (demo_tag_both N) = ∅) by reflexivity.
  destruct (AllFrames_and_GetFrames N (demo_readFrame N) (demo_tag_both N) Hnone)
    as (all & Hall & Hid).
  destruct (Hid "APIC") as (Hin & fs & Hget & _ & _ & Hboth).
  destruct (Hboth (demo_picture N "S")) as (-> & Hdef).
  { reflexivity. }
  exists all. split; [exact Hall|]. split; [exact Hget|]. split.
  - intros Hmiss. apply Hin in Hmiss as (Hfr & _). discriminate Hfr.
  - exact Hdef.
Defined.

Lemma Save_panics_exactly_witness :
  (∃ (r : option error * Tag N) (w' : World),
     Save N (demo_Body N) demo_FormSize demo_formTagHeader (demo_readFrame N)
       (demo_tag_G N) demo_world = (Ok r, w'))
  ∧ (∃ msg : string,
       Save N (demo_Body N) demo_FormSize demo_formTagHeader (demo_readFrame N)
         (demo_tag_blank N 3%N) demo_world = (Panic msg, demo_world)).
Proof.
  split.
  - assert (Hnone : framesCoords (demo_tag_G N) = ∅) by reflexivity.
    destruct (Save_panics_exactly N (demo_Body N) demo_FormSize demo_formTagHeader
                (demo_readFrame N) (demo_tag_G N) Hnone) as (_ & Hsave).
    apply (Hsave demo_world). split.
    + intros id f Hf. discriminate Hf.
    + intros id s Hs. unfold demo_tag_G in Hs. cbn [sequences] in Hs.
      apply lookup_singleton_Some in Hs as [<- <-]. right. split; [discriminate|].
      repeat constructor. discriminate.
  - assert (Hnone : framesCoords (demo_tag_blank N 3%N) = ∅) by reflexivity.
    destruct (Save_panics_exactly N (demo_Body N) demo_FormSize demo_formTagHeader
                (demo_readFrame N) (demo_tag_blank N 3%N) Hnone) as (_ & Hsave).
    apply (Hsave demo_world). intros (Hfr & _).
    assert (Hstored : frames N (demo_tag_blank N 3%N) !! "" = Some (demo_text N 3%N "Foo"))
      by reflexivity.
    destruct (Hfr _ _ Hstored) as (Hne & _). apply Hne. reflexivity.
Defined.

Lemma unknown_description_breaks_Save_witness :
  ID N (demo_tag N) "Mood" = ""
  ∧ breaksSave N (demo_Body N) demo_FormSize demo_formTagHeader (demo_readFrame N)
      (AddFrame (ID N (demo_tag N) "Mood") (demo_text N 3%N "Calm")) (demo_tag N)
  ∧ breaksSave N (demo_Body N) demo_FormSize demo_formTagHeader (demo_readFrame N)
      (SetTitle N 3%N "Foo") (demo_tag_noids N).
Proof.
  assert (Hnone : framesCoords (demo_tag N) = ∅) by reflexivity.
  assert (Hnone' : framesCoords (demo_tag_noids N) = ∅) by reflexivity.
  destruct (unknown_description_breaks_Save N 3%N (demo_Body N) demo_FormSize
              demo_formTagHeader (demo_readFrame N) (demo_tag N) Hnone) as (Hadd & _).
  destruct (unknown_description_breaks_Save N 3%N (demo_Body N) demo_FormSize
              demo_formTagHeader (demo_readFrame N) (demo_tag_noids N) Hnone') as (_ & Hset).
  destruct (Hadd "Mood" (demo_text N 3%N "Calm")) as (Hid & Hbreak).
  { reflexivity. }
  split; [exact Hid|]. split; [exact Hbreak|].
  apply (proj1 (Hset "Foo")). reflexivity.
Defined.

Lemma Save_after_Close_fails_witness :
  ¬ ∃ (t' : Tag N) (w' : World),
      Save N (demo_Body N) demo_FormSize demo_formTagHeader (demo_readFrame N)
        (demo_tag_Foo N 3%N) (Close N (demo_tag_Foo N 3%N) demo_world).2
      = (Ok (None, t'), w').
Proof.
  intros (t' & w' & Hrun).
  assert (Hfile : is_Some (files demo_world !! file N (demo_tag_Foo N 3%N))).
  { exists demo_file. reflexivity. }
  exact (proj2 (Save_after_Close_fails N (demo_Body N) demo_FormSize demo_formTagHeader
                  (demo_readFrame N) (demo_tag_Foo N 3%N) demo_world) Hfile t' w' Hrun).
Defined.

Lemma second_Save_misses_original_name_witness :
  ∃ (t2 : Tag N) (w2 : World) (ino1 : nat) (x1 : inode),
    Save N (demo_Body N) demo_FormSize demo_formTagHeader (demo_readFrame N)
      (demo_tag_Foo N 3%N) demo_world
    = (Ok (None, t2), w2)
    ∧ names w2 !! "song.mp3" = Some ino1
    ∧ inodes w2 !! ino1 = Some x1
    ∧ File_Name w2 (file N t2) ≠ "song.mp3"
    ∧ ∃ (t4 : Tag N) (w4 : World) (ino2 : nat),
        Save N (demo_Body N) demo_FormSize demo_formTagHeader (demo_readFrame N) t2 w2
        = (Ok (None, t4), w4)
        ∧ names w4 !! "song.mp3" = Some ino1
        ∧ inodes w4 !! ino1 = Some x1
        ∧ names w4 !! File_Name w2 (file N t2) = Some ino2
        ∧ inodes w4 !! ino2
          = Some (mkInode (demo_formTagHeader (demo_FormSize 13) ++ demo_frames
                           ++ drop 10 (i_data x1)) (i_mode x1)).
Proof.
  assert (Hfile : files demo_world !! file N (demo_tag_Foo N 3%N) = Some demo_file)
    by reflexivity.
  assert (Hopen : f_closed demo_file = false) by reflexivity.
  assert (Hino : inodes demo_world !! f_ino demo_file
                 = Some (mkInode (demo_tagRegion ++ demo_payload) 420%N)) by reflexivity.
  assert (Hsize : (0 ≤ originalSize N (demo_tag_Foo N 3%N))%Z) by (vm_compute; discriminate).
  assert (Hname : is_Some (names demo_world !! f_name demo_file)).
  { exists 0%nat. reflexivity. }
  assert (Hfault : firstFault 16 (faults demo_world) = None) by reflexivity.
  destruct (second_Save_misses_original_name N (demo_Body N) demo_FormSize
              demo_formTagHeader (demo_readFrame N) (demo_tag_Foo N 3%N)
              (demo_tag_Foo N 3%N) demo_world demo_file _ demo_frames
              demo_formAllFrames Hfile Hopen Hino Hsize Hname Hfault)
    as (t2 & w2 & ino1 & x1 & Hrun & Hn & Hi & Hmoved & _ & Hsecond).
  assert (Ht2 : t2 = set_file N (demo_tag_Foo N 3%N) 1).
  { pose proof demo_Save_succeeds as Hfirst. rewrite Hrun in Hfirst.
    injection Hfirst as Hfirst. exact Hfirst. }
  assert (Hform : formAllFrames N (demo_Body N) demo_FormSize (demo_readFrame N) t2
                  = Ok (demo_frames, t2)).
  { rewrite Ht2. vm_compute. reflexivity. }
  destruct (Hsecond demo_frames t2 Hform) as (t4 & w4 & ino2 & Hrun2 & Hn4 & Hi4 & Hn2 & Hi2).
  exists t2, w2, ino1, x1.
  split; [exact Hrun|]. split; [exact Hn|]. split; [exact Hi|]. split; [exact Hmoved|].
  exists t4, w4, ino2.
  split; [exact Hrun2|]. split; [exact Hn4|]. split; [exact Hi4|]. split; [exact Hn2|].
  exact Hi2.
Defined.

Lemma Save_recreates_removed_name_witness :
  ∃ (t2 : Tag N) (w2 : World) (ino : nat),
    Save N (demo_Body N) demo_FormSize demo_formTagHeader (demo_readFrame N)
      (demo_tag_Foo N 3%N) (set_names demo_world ∅)
    = (Ok (None, t2), w2)
    ∧ names w2 !! "song.mp3" = Some ino
    ∧ inodes demo_world !! ino = None
    ∧ inodes w2 !! ino
      = Some (mkInode (demo_formTagHeader (demo_FormSize 13) ++ demo_frames ++ demo_payload)
                      420%N).
Proof.
  assert (Hfile : files (set_names demo_world ∅) !! file N (demo_tag_Foo N 3%N)
                  = Some demo_file) by reflexivity.
  assert (Hopen : f_closed demo_file = false) by reflexivity.
  assert (Hino : inodes (set_names demo_world ∅) !! f_ino demo_file
                 = Some (mkInode (demo_tagRegion ++ demo_payload) 420%N)) by reflexivity.
  assert (Hsize : (0 ≤ originalSize N (demo_tag_Foo N 3%N))%Z) by (vm_compute; discriminate).
  assert (Hgone : names (set_names demo_world ∅) !! f_name demo_file = None) by reflexivity.
  assert (Hfault : firstFault 8 (faults (set_names demo_world ∅)) = None) by reflexivity.
  exact (Save_recreates_removed_name N (demo_Body N) demo_FormSize
           demo_formTagHeader (demo_readFrame N) (demo_tag_Foo N 3%N)
           (demo_tag_Foo N 3%N) (set_names demo_world ∅) demo_file _ demo_frames
           demo_formAllFrames Hfile Hopen Hino Hsize Hgone Hfault).
Defined.

Lemma failed_Save_leaves_temporary_file_witness :
  ∃ w' : World,
    Save N (demo_Body N) demo_FormSize demo_formTagHeader (demo_readFrame N)
      (demo_tag_Foo N 3%N) demo_world_failing
    = (Ok (Some "no space left on device", demo_tag_Foo N 3%N), w')
    ∧ names w' = <[fresh (dom (names demo_world_failing))
                   := fresh (dom (inodes demo_world_failing))]> (names demo_world_failing)
    ∧ names demo_world_failing !! fresh (dom (names demo_world_failing)) = None
    ∧ is_Some (inodes w' !! fresh (dom (inodes demo_world_failing))).
Proof.
  assert (Hrun : Save N (demo_Body N) demo_FormSize demo_formTagHeader (demo_readFrame N)
                   (demo_tag_Foo N 3%N) demo_world_failing
                 = (Ok (Some "no space left on device", demo_tag_Foo N 3%N),
                    (Save N (demo_Body N) demo_FormSize demo_formTagHeader
                       (demo_readFrame N) (demo_tag_Foo N 3%N) demo_world_failing).2)).
  { rewrite <- demo_Save_fails. apply surjective_pairing. }
  assert (Hfault : firstFault 1 (faults demo_world_failing) = None) by reflexivity.
  eexists. split; [exact Hrun|].
  exact (proj1 (failed_Save_leaves_temporary_file N (demo_Body N) demo_FormSize
                  demo_formTagHeader (demo_readFrame N) _ _ _ _ _ Hrun) Hfault).
Defined.

Lemma late_failure_closes_the_file_witness :
  ∃ w' : World,
    Save N (demo_Body N) demo_FormSize demo_formTagHeader (demo_readFrame N)
      (demo_tag_Foo N 3%N) demo_world_failing
    = (Ok (Some "no space left on device", demo_tag_Foo N 3%N), w')
    ∧ closedFile w' 0
    ∧ ∀ (fl : list (option fault)) (t'' : Tag N) (w'' : World),
        Save N (demo_Body N) demo_FormSize demo_formTagHeader (demo_readFrame N)
          (demo_tag_Foo N 3%N) (set_faults w' fl)
        ≠ (Ok (None, t''), w'').
Proof.
  assert (Hrun : Save N (demo_Body N) demo_FormSize demo_formTagHeader (demo_readFrame N)
                   (demo_tag_Foo N 3%N) demo_world_failing
                 = (Ok (Some "no space left on device", demo_tag_Foo N 3%N),
                    (Save N (demo_Body N) demo_FormSize demo_formTagHeader
                       (demo_readFrame N) (demo_tag_Foo N 3%N) demo_world_failing).2)).
  { rewrite <- demo_Save_fails. apply surjective_pairing. }
  assert (Hfile : files demo_world_failing !! file N (demo_tag_Foo N 3%N) = Some demo_file)
    by reflexivity.
  assert (Hopen : f_closed demo_file = false) by reflexivity.
  assert (Hino : inodes demo_world_failing !! f_ino demo_file
                 = Some (mkInode (demo_tagRegion ++ demo_payload) 420%N)) by reflexivity.
  assert (Hfault : firstFault 3 (faults demo_world_failing) = None) by reflexivity.
  eexists. split; [exact Hrun|].
  exact (proj2 (late_failure_closes_the_file N (demo_Body N) demo_FormSize
                  demo_formTagHeader (demo_readFrame N) _ _ _ _ demo_file _ _
                  Hfile Hopen Hino Hfault Hrun)).
Defined.

Lemma Save_changes_only_the_file_witness :
  ∃ w' : World,
    Save N (demo_Body N) demo_FormSize demo_formTagHeader (demo_readFrame N)
      (demo_tag_Foo N 3%N) demo_world
    = (Ok (None, set_file N (demo_tag_Foo N 3%N) 1), w')
    ∧ ∃ fs : list (Framer N),
        GetFrames N (demo_readFrame N) "TIT2" (demo_tag_Foo N 3%N)
        = Ok (fs, demo_tag_Foo N 3%N)
        ∧ GetFrames N (demo_readFrame N) "TIT2" (set_file N (demo_tag_Foo N 3%N) 1)
          = Ok (fs, set_file N (demo_tag_Foo N 3%N) 1).
Proof.
  assert (Hrun : Save N (demo_Body N) demo_FormSize demo_formTagHeader (demo_readFrame N)
                   (demo_tag_Foo N 3%N) demo_world
                 = (Ok (None, set_file N (demo_tag_Foo N 3%N) 1),
                    (Save N (demo_Body N) demo_FormSize demo_formTagHeader
                       (demo_readFrame N) (demo_tag_Foo N 3%N) demo_world).2)).
  { rewrite <- demo_Save_succeeds. apply surjective_pairing. }
  assert (Hnone : framesCoords (demo_tag_Foo N 3%N) = ∅) by reflexivity.
  eexists. split; [exact Hrun|].
  destruct (Save_changes_only_the_file N (demo_Body N) demo_FormSize demo_formTagHeader
              (demo_readFrame N) _ _ _ _ _ Hnone Hrun) as (_ & _ & _ & _ & _ & _ & Hget).
  exact (Hget "TIT2").
Defined.



